(** * StreamSpeech: sentence chunker, audio buffer manager, streaming session

  A shallow embedding of [src/chunking.ts], [src/buffer-manager.ts] and
  the session loop of the streaming module ([predictStream] and
  [cancelStream]), with the properties the specification states about
  them.

  Conventions of the embedding.
  - A JavaScript string is a sequence of UTF-16 code units: [list N].
  - Array indices, lengths and loop counters are [nat]; sample counts that
    the source lets go negative ([offset], [crossfadeSamples]) are [Z].
  - A JavaScript [number] holding a measurement (sample values, sample
    rate, durations, peaks) is an exact rational [Q]: the rounding of
    IEEE-754 arithmetic and of [Float32Array] storage, NaN and the
    infinities are outside the model. The one number whose rounding
    decides a result, the budget of words of [calculateOptimalChunkSize],
    is an IEEE-754 double.
  - A [Float32Array] is a [list Q]; writes through an index out of range
    are dropped, as typed arrays do. *)

From Stdlib Require Import ZArith NArith QArith Qround Qminmax Qabs.
From Stdlib Require Import List String Ascii Bool Lia Lqa Sorted.
From Stdlib Require SpecFloat.
From stdpp Require Import base list.
Import ListNotations.

Local Open Scope nat_scope.

(* ===================================================================== *)
(** ** JavaScript strings *)
(* ===================================================================== *)

Module JsString.

(** A string value: its UTF-16 code units. *)
Definition t : Type := list N.

(** The code units of an ASCII literal. *)
Definition lit (s : string) : t :=
  List.map N_of_ascii (list_ascii_of_string s).

Definition eqb (a b : t) : bool :=
  bool_decide (a = b).

Definition in_range (lo hi c : N) : bool := ((lo <=? c) && (c <=? hi))%N.

(** The class [\s] of a RegExp without the [u] flag, which is also the set
    that [String.prototype.trim] strips (WhiteSpace and LineTerminator). *)
Definition is_space (c : N) : bool :=
  in_range 9 13 c || (c =? 32)%N || (c =? 160)%N || (c =? 5760)%N
  || in_range 8192 8202 c || (c =? 8232)%N || (c =? 8233)%N
  || (c =? 8239)%N || (c =? 8287)%N || (c =? 12288)%N || (c =? 65279)%N.

Definition is_lower (c : N) : bool := in_range 97 122 c.    (* [a-z] *)
Definition is_upper (c : N) : bool := in_range 65 90 c.     (* [A-Z] *)
Definition is_digit (c : N) : bool := in_range 48 57 c.     (* \d *)
Definition is_letter (c : N) : bool := is_lower c || is_upper c. (* [a-zA-Z] *)

Definition DOT : N := 46.
Definition BANG : N := 33.
Definition QUESTION : N := 63.
Definition DQUOTE : N := 34.
Definition SQUOTE : N := 39.
Definition SPACE : N := 32.

Definition is_ender (c : N) : bool :=                        (* [.!?] *)
  (c =? DOT)%N || (c =? BANG)%N || (c =? QUESTION)%N.
(** The class of the double and the single quote. *)
Definition is_quote (c : N) : bool :=
  (c =? DQUOTE)%N || (c =? SQUOTE)%N.

(** [s[i]]: [None] stands for [undefined]. *)
Definition charAt (s : t) (i : nat) : option N := nth_error s i.

(** [s[i] === c] *)
Definition charIs (s : t) (i : nat) (c : N) : bool :=
  match charAt s i with Some d => (d =? c)%N | None => false end.

(** [re.test(s[i])] for a one-character class [p] none of whose members
    occurs in the word undefined. *)
Definition charTest (p : N -> bool) (s : t) (i : nat) : bool :=
  match charAt s i with Some d => p d | None => false end.

(** [s.slice(a, b)] and [s.slice(a)] for non-negative [a], [b]. *)
Definition slice (s : t) (a b : nat) : t := firstn (b - a) (skipn a s).
Definition sliceFrom (s : t) (a : nat) : t := skipn a s.

Fixpoint dropSpaces (s : t) : t :=
  match s with
  | c :: r => if is_space c then dropSpaces r else s
  | [] => []
  end.

(** [s.trim()] *)
Definition trim (s : t) : t := rev (dropSpaces (rev (dropSpaces s))).

(** [s.replace(/\s+/g, ' ')]; [inRun] tells that the previous code unit
    belonged to the run of white space being replaced. *)
Fixpoint collapseFrom (inRun : bool) (s : t) : t :=
  match s with
  | [] => []
  | c :: r =>
      if is_space c
      then (if inRun then collapseFrom true r else SPACE :: collapseFrom true r)
      else c :: collapseFrom false r
  end.
Definition collapseSpaces (s : t) : t := collapseFrom false s.

(** [/^[p]/.test(s)] *)
Definition startsWith (p : N -> bool) (s : t) : bool :=
  match s with c :: _ => p c | [] => false end.

(** [/^\s+K/.test(s)] where [k] decides [/^K/] and [K] cannot start with
    white space: the greedy run takes all the leading white space, and
    giving some of it back never helps. *)
Definition spacesThen (k : t -> bool) (s : t) : bool :=
  match s with
  | c :: r => is_space c && k (dropSpaces r)
  | [] => false
  end.

(** [/^\s*$/.test(s)] *)
Definition allSpaces (s : t) : bool := forallb is_space s.

(** [s.toLowerCase()] on the ASCII letters; the source applies it to runs
    of [a-zA-Z] only. *)
Definition toLowerCase (s : t) : t :=
  List.map (fun c => if is_upper c then (c + 32)%N else c) s.

(** [parts.join(' ')] *)
Fixpoint join (parts : list t) : t :=
  match parts with
  | [] => []
  | [p] => p
  | p :: rest => p ++ SPACE :: join rest
  end.

(** Truthiness of a string: non-empty. *)
Definition truthy (s : t) : bool :=
  match s with [] => false | _ => true end.

End JsString.

(* ===================================================================== *)
(** ** chunking.ts *)
(* ===================================================================== *)

Module Chunking.
Import JsString.

Definition ABBREVIATIONS : list JsString.t :=
  List.map lit
    ["mr"; "mrs"; "ms"; "dr"; "prof"; "sr"; "jr"; "vs"; "etc"; "inc"; "ltd"; "co";
     "corp"; "st"; "ave"; "blvd"; "rd"; "dept"; "govt"; "univ"; "jan"; "feb"; "mar";
     "apr"; "jun"; "jul"; "aug"; "sep"; "oct"; "nov"; "dec"; "mon"; "tue"; "wed";
     "thu"; "fri"; "sat"; "sun"; "no"; "nos"; "vol"; "vols"; "rev"; "est"; "approx";
     "fig"; "figs"; "eg"; "ie"; "cf"; "al"; "et"]%string.

(** [ABBREVIATIONS.has(w)] *)
Definition isAbbreviation (w : JsString.t) : bool :=
  existsb (JsString.eqb w) ABBREVIATIONS.

(** The loop of [getWordBefore]; [n] is [start + 1], so that the result is
    the index [start + 1] at which the loop stops. *)
Fixpoint wordStart (text : JsString.t) (n : nat) : nat :=
  match n with
  | O => O
  | S k => if charTest is_letter text k then wordStart text k else n
  end.

Definition getWordBefore (text : JsString.t) (pos : nat) : JsString.t :=
  slice text (wordStart text pos) pos.

Definition isSentenceBoundary (text : JsString.t) (pos : nat) : bool :=
  let isDot := charIs text pos DOT in
  (* Must be a sentence-ending punctuation *)
  if negb (charTest is_ender text pos) then false
  (* Check for ellipsis (...) *)
  else if isDot && charIs text (pos + 1) DOT && charIs text (pos + 2) DOT then false
  else
    let afterPunc := slice text (pos + 1) (pos + 3) in
    (* If followed by lowercase letter without space, not a boundary *)
    if startsWith is_lower afterPunc then false
    (* If followed by digit, not a boundary *)
    else if isDot && startsWith is_digit afterPunc then false
    else
      let wordBefore := getWordBefore text pos in
      (* abbreviation before the period, not followed by space + capital *)
      if isDot && isAbbreviation (toLowerCase wordBefore)
         && negb (spacesThen (startsWith is_upper) (sliceFrom text (pos + 1)))
      then false
      (* initials: a single capital letter, more initials coming *)
      else if isDot
              && (match wordBefore with [c] => is_upper c | _ => false end)
              && spacesThen
                   (fun r => match r with
                             | c :: d :: _ => is_upper c && (d =? DOT)%N
                             | _ => false
                             end)
                   (sliceFrom text (pos + 1))
      then false
      (* quotes: the sentence might continue after the closing quote *)
      else if (charIs text (pos + 1) DQUOTE || charIs text (pos + 1) SQUOTE)
              && spacesThen (startsWith is_lower) (slice text (pos + 2) (pos + 4))
      then false
      (* followed by space and capital letter or quote, or only by spaces *)
      else if spacesThen (startsWith (fun c => is_upper c || (c =? DQUOTE)%N)) afterPunc
              || allSpaces (sliceFrom text (pos + 1))
      then true
      (* End of text is a boundary *)
      else if Nat.eqb (S pos) (length text) then true
      (* Default: followed by whitespace *)
      else charTest is_space text (pos + 1).

Definition detectSentenceBoundaries (text : JsString.t) : list nat :=
  List.filter
    (fun i => charTest is_ender text i && isSentenceBoundary text i)
    (seq 0 (length text)).

(** The [while] loop that steps [end] over closing quotes; it runs at most
    [length normalized] times, which is the fuel given to it. *)
Fixpoint skipQuotes (fuel : nat) (normalized : JsString.t) (end_ : nat) : nat :=
  match fuel with
  | O => end_
  | S f =>
      if (end_ <? length normalized) && charTest is_quote normalized end_
      then skipQuotes f normalized (S end_)
      else end_
  end.

(** One turn of the [for (const boundary of boundaries)] loop on the pair
    [(start, sentences)]. *)
Definition splitStep (normalized : JsString.t)
    (acc : nat * list JsString.t) (boundary : nat) : nat * list JsString.t :=
  let '(start, sentences) := acc in
  let end_ := skipQuotes (length normalized) normalized (boundary + 1) in
  let sentence := trim (slice normalized start end_) in
  (end_, if truthy sentence then sentences ++ [sentence] else sentences).

Definition splitIntoSentences (text : JsString.t) : list JsString.t :=
  let normalized := collapseSpaces (trim text) in
  let boundaries := detectSentenceBoundaries normalized in
  match boundaries with
  | [] => [normalized]
  | _ =>
      let '(start, sentences) :=
        fold_left (splitStep normalized) boundaries (0, []) in
      let remaining := trim (sliceFrom normalized start) in
      if truthy remaining then sentences ++ [remaining] else sentences
  end.

Record TextChunk : Type := mkTextChunk {
  text : JsString.t;
  index : nat;
  isFirst : bool;
  isLast : bool;
  previousContext : option JsString.t;   (* [None] is [undefined] *)
  lookaheadContext : option JsString.t
}.

(** [xs.slice(a, b)] on an array *)
Definition sliceArr {A} (xs : list A) (a b : nat) : list A :=
  firstn (b - a) (skipn a xs).

(** The body of the [for] loop of [createTextChunks] at index [i]. *)
Definition makeChunk (sentences : list JsString.t) (chunkSize lookahead : nat)
    (i : nat) (chunks : list TextChunk) : TextChunk :=
  let chunkSentences := sliceArr sentences i (i + chunkSize) in
  let chunkText := join chunkSentences in
  let prevStart := Nat.max 0 (i - lookahead) in
  let previousContext :=
    if 0 <? i then Some (join (sliceArr sentences prevStart i)) else None in
  let lookaheadEnd := Nat.min (length sentences) (i + chunkSize + lookahead) in
  let lookaheadContext :=
    if i + chunkSize <? length sentences
    then Some (join (sliceArr sentences (i + chunkSize) lookaheadEnd))
    else None in
  {| text := chunkText;
     index := length chunks;
     isFirst := Nat.eqb i 0;
     isLast := length sentences <=? i + chunkSize;
     previousContext := previousContext;
     lookaheadContext := lookaheadContext |}.

(** The [for (let i = 0; i < sentences.length; i += chunkSize)] loop.
    [None]: the fuel ran out, which is how the loop that never ends
    ([chunkSize = 0] on a non-empty input) shows. *)
Fixpoint chunkLoop (fuel : nat) (sentences : list JsString.t)
    (chunkSize lookahead : nat) (i : nat) (chunks : list TextChunk)
    : option (list TextChunk) :=
  if i <? length sentences then
    match fuel with
    | O => None
    | S f =>
        chunkLoop f sentences chunkSize lookahead (i + chunkSize)
          (chunks ++ [makeChunk sentences chunkSize lookahead i chunks])
    end
  else Some chunks.

(** [chunkSize] and [lookahead] are sentence counts: naturals. *)
Definition createTextChunks (text : JsString.t) (chunkSize lookahead : nat)
    : option (list TextChunk) :=
  let sentences := splitIntoSentences text in
  chunkLoop (length sentences) sentences chunkSize lookahead 0 [].

End Chunking.

(* ===================================================================== *)
(** ** Exceptions *)
(* ===================================================================== *)

(** What a call can end in: a value, or an exception thrown. An exception
    carries the text that the [catch] clauses read from it:
    [error instanceof Error ? error.message : String(error)]. *)
Inductive JsError : Type :=
| RangeError (message : JsString.t)         (* a RangeError of the runtime *)
| ConfigurationError (message : JsString.t) (* the error the specification names *)
| ExternalError (msg : JsString.t).
    (* any other value thrown by a collaborator: [msg] is its message, or
       [String(value)] when the value is not an Error object *)

(** [error instanceof Error ? error.message : String(error)] *)
Definition messageOf (e : JsError) : JsString.t :=
  match e with
  | RangeError message => message
  | ConfigurationError message => message
  | ExternalError msg => msg
  end.

Inductive result (A : Type) : Type :=
| Ok (a : A)
| Throw (e : JsError).
Arguments Ok {A} a.
Arguments Throw {A} e.

(* ===================================================================== *)
(** ** buffer-manager.ts *)
(* ===================================================================== *)

Module BufferManager.

Local Open Scope Q_scope.

(** [a > b] and [a >= b] on numbers *)
Definition Qgtb (a b : Q) : bool := negb (Qle_bool a b).
Definition Qgeb (a b : Q) : bool := Qle_bool b a.

(** [BufferManagerOptions]: every field is optional. *)
Module Options.
Record t : Type := mk {
  sampleRate : option Q;
  crossfade : option bool;
  crossfadeDuration : option Q;
  normalize : option bool;
  targetPeak : option Q
}.
(** [{}], the default argument of the constructor *)
Definition empty : t := mk None None None None None.
End Options.

Record ChunkMetrics : Type := mkChunkMetrics {
  phonemizeTime : Q;
  inferenceTime : Q;
  totalTime : Q;
  timeToFirstByte : Q
}.

(** Metrics for the runs in which the times play no part. *)
Definition someMetrics : ChunkMetrics := mkChunkMetrics 0 0 0 0.

(** [new Blob([pcm2wav(pcm, 1, sampleRate)], ...)]: [pcm2wav] is imported
    from [./audio], which is not among the sources; a blob is kept as the
    arguments its encoder was given. *)
Record Blob : Type := mkBlob {
  blobSamples : list Q;
  blobChannels : nat;
  blobSampleRate : Q
}.

Definition wavBlob (pcm : list Q) (rate : Q) : Blob := mkBlob pcm 1 rate.

Record AudioChunk : Type := mkAudioChunk {
  pcm : list Q;
  blob : Blob;
  index : nat;
  startTime : Q;
  duration : Q;
  isFirst : bool;
  isLast : bool;
  text : JsString.t;
  metrics : ChunkMetrics
}.

Definition setIsLast (b : bool) (c : AudioChunk) : AudioChunk :=
  mkAudioChunk (pcm c) (blob c) (index c) (startTime c) (duration c)
               (isFirst c) b (text c) (metrics c).

Definition setPcmBlob (p : list Q) (b : Blob) (c : AudioChunk) : AudioChunk :=
  mkAudioChunk p b (index c) (startTime c) (duration c)
               (isFirst c) (isLast c) (text c) (metrics c).

(** The private fields of [AudioBufferManager]. *)
Record AudioBufferManager : Type := mkManager {
  chunks : list AudioChunk;
  sampleRate : Q;
  crossfade : bool;
  crossfadeSamples : Z;
  normalize : bool;
  targetPeak : Q;
  totalDuration : Q
}.

(** [constructor(options = {})]; [??] is [default]. The body has no
    [throw] and calls nothing that throws. *)
Definition constructor (options : Options.t) : AudioBufferManager :=
  let sampleRate := default 22050 (Options.sampleRate options) in
  {| chunks := [];
     sampleRate := sampleRate;
     crossfade := default true (Options.crossfade options);
     crossfadeSamples :=
       Qfloor (default 20 (Options.crossfadeDuration options) * sampleRate / 1000);
     normalize := default true (Options.normalize options);
     targetPeak := default (95 # 100) (Options.targetPeak options);
     totalDuration := 0 |}.

(** [new AudioBufferManager(options)] as a call that may throw. *)
Definition new (options : Options.t) : result AudioBufferManager :=
  Ok (constructor options).

Definition setSampleRate (r : Q) (m : AudioBufferManager) : AudioBufferManager :=
  {| chunks := chunks m;
     sampleRate := r;
     crossfade := crossfade m;
     crossfadeSamples := Qfloor (20 * r / 1000);
     normalize := normalize m;
     targetPeak := targetPeak m;
     totalDuration := totalDuration m |}.

(** One turn of the loop of [findPeak]. *)
Definition peakStep (peak x : Q) : Q :=
  let abs := Qabs x in
  if Qgtb abs peak then abs else peak.

Definition findPeak (pcm : list Q) : Q := fold_left peakStep pcm 0.

(** [Math.max(-1, Math.min(1, v))] *)
Definition clamp (v : Q) : Q := Qmax (-1) (Qmin 1 v).

Definition normalizeAudio (m : AudioBufferManager) (pcm : list Q) : list Q :=
  let peak := findPeak pcm in
  if Qeq_bool peak 0 || Qgeb peak (targetPeak m) then pcm
  else
    let gain := targetPeak m / peak in
    List.map (fun x => clamp (x * gain)) pcm.

(** [result[k] *= f] on a typed array *)
Definition scaleAt (f : Q) (k : nat) (a : list Q) : list Q :=
  alter (fun v => v * f) k a.

(** [Math.min(this.crossfadeSamples, pcm.length)] *)
Definition fadeLength (m : AudioBufferManager) (pcm : list Q) : Z :=
  Z.min (crossfadeSamples m) (Z.of_nat (length pcm)).

Definition applyCrossfadeIn (m : AudioBufferManager) (pcm : list Q) : list Q :=
  let fadeSamples := fadeLength m pcm in
  fold_left
    (fun res i => scaleAt (inject_Z (Z.of_nat i) / inject_Z fadeSamples) i res)
    (seq 0 (Z.to_nat fadeSamples)) pcm.

Definition applyCrossfadeOut (m : AudioBufferManager) (pcm : list Q) : list Q :=
  let fadeSamples := fadeLength m pcm in
  let startIdx := (Z.of_nat (length pcm) - fadeSamples)%Z in
  fold_left
    (fun res i =>
       scaleAt (1 - inject_Z (Z.of_nat i) / inject_Z fadeSamples)
               (Z.to_nat (startIdx + Z.of_nat i)) res)
    (seq 0 (Z.to_nat fadeSamples)) pcm.

(** The retroactive edit of the previous chunk in [addChunk]. *)
Definition fadeOutChunk (m : AudioBufferManager) (c : AudioChunk) : AudioChunk :=
  let p := applyCrossfadeOut m (pcm c) in
  setPcmBlob p (wavBlob p (sampleRate m)) c.

(** [addChunk]: the manager afterwards and the chunk returned. The chunk
    returned is the object stored at position [index]: what is later done
    to the stored chunk is done to it. *)
Definition addChunk (m : AudioBufferManager) (pcm0 : list Q)
    (text0 : JsString.t) (metrics0 : ChunkMetrics)
    : AudioBufferManager * AudioChunk :=
  let index0 := length (chunks m) in
  let isFirst0 := Nat.eqb index0 0 in
  let normalized := if normalize m then normalizeAudio m pcm0 else pcm0 in
  let fading := crossfade m && negb isFirst0 && (0 <? length (chunks m))%nat in
  let processedPcm := if fading then applyCrossfadeIn m normalized else normalized in
  let chunks1 :=
    if fading then alter (fadeOutChunk m) (length (chunks m) - 1)%nat (chunks m)
    else chunks m in
  let duration0 := inject_Z (Z.of_nat (length processedPcm)) / sampleRate m in
  let startTime0 := totalDuration m in
  let chunk :=
    {| pcm := processedPcm;
       blob := wavBlob processedPcm (sampleRate m);
       index := index0;
       startTime := startTime0;
       duration := duration0;
       isFirst := isFirst0;
       isLast := false;
       text := text0;
       metrics := metrics0 |} in
  ({| chunks := chunks1 ++ [chunk];
      sampleRate := sampleRate m;
      crossfade := crossfade m;
      crossfadeSamples := crossfadeSamples m;
      normalize := normalize m;
      targetPeak := targetPeak m;
      totalDuration := totalDuration m + duration0 |},
   chunk).

(** A caller making one [addChunk] call per input, in order: the manager
    afterwards and the chunks returned. *)
Definition ChunkInput : Type := (list Q * JsString.t * ChunkMetrics)%type.

Fixpoint addChunks (m : AudioBufferManager) (inputs : list ChunkInput)
    : AudioBufferManager * list AudioChunk :=
  match inputs with
  | [] => (m, [])
  | (p, t, x) :: rest =>
      let '(m1, c) := addChunk m p t x in
      let '(m2, cs) := addChunks m1 rest in
      (m2, c :: cs)
  end.

Definition withChunks (cs : list AudioChunk) (m : AudioBufferManager)
    : AudioBufferManager :=
  mkManager cs (sampleRate m) (crossfade m) (crossfadeSamples m)
            (normalize m) (targetPeak m) (totalDuration m).

Definition finalize (m : AudioBufferManager) : AudioBufferManager :=
  if (0 <? length (chunks m))%nat
  then withChunks (alter (setIsLast true) (length (chunks m) - 1)%nat (chunks m)) m
  else m.

Definition getChunks (m : AudioBufferManager) : list AudioChunk := chunks m.

Definition getTotalDuration (m : AudioBufferManager) : Q := totalDuration m.

Definition clear (m : AudioBufferManager) : AudioBufferManager :=
  mkManager [] (sampleRate m) (crossfade m) (crossfadeSamples m)
            (normalize m) (targetPeak m) 0.

(** The message of the [RangeError] of [set], in the words of V8; other
    engines word it differently. *)
Definition offsetOutOfBounds : JsString.t :=
  JsString.lit "offset is out of bounds".

(** [target.set(src, offset)] of a typed array: a [RangeError] when the
    offset is negative or the source does not fit. *)
Definition setAt (target src : list Q) (offset : Z) : result (list Q) :=
  if (offset <? 0)%Z
     || (Z.of_nat (length target) <? Z.of_nat (length src) + offset)%Z
  then Throw (RangeError offsetOutOfBounds)
  else
    let k := Z.to_nat offset in
    Ok (firstn k target ++ src ++ skipn (k + length src) target).

(** [a.slice(0, e)] of a typed array: a negative [e] counts from the end. *)
Definition sliceTo (a : list Q) (e : Z) : list Q :=
  let stop := if (e <? 0)%Z then Z.max (Z.of_nat (length a) + e) 0 else e in
  firstn (Z.to_nat stop) a.

(** One turn of the blending loop of [getConcatenatedBlob]. *)
Definition blendStep (cs : Z) (incoming : list Q) (overlapStart : Z)
    (concatenated : list Q) (i : nat) : list Q :=
  let fadeIn := inject_Z (Z.of_nat i) / inject_Z cs in
  let fadeOut := 1 - fadeIn in
  if (0 <=? overlapStart + Z.of_nat i)%Z then
    let k := Z.to_nat (overlapStart + Z.of_nat i) in
    match concatenated !! k, incoming !! i with
    | Some a, Some b => <[k := a * fadeOut + b * fadeIn]> concatenated
    | _, _ => concatenated
    end
  else concatenated.

(** [for (let i = 0; i < cs && i < incoming.length; i++)] *)
Definition blendOverlap (cs : Z) (incoming : list Q) (overlapStart : Z)
    (concatenated : list Q) : list Q :=
  fold_left (blendStep cs incoming overlapStart)
    (seq 0 (Z.to_nat (Z.min cs (Z.of_nat (length incoming)))))
    concatenated.

(** One turn of [for (const chunk of this.chunks)] on the pair
    [(concatenated, offset)]. *)
Definition concatStep (m : AudioBufferManager)
    (st : list Q * Z) (chunk : AudioChunk) : result (list Q * Z) :=
  let '(concatenated, offset) := st in
  let cs := crossfadeSamples m in
  let len := Z.of_nat (length (pcm chunk)) in
  if crossfade m && (0 <? offset)%Z && (0 <? cs)%Z then
    let overlapStart := (offset - cs)%Z in
    let blended := blendOverlap cs (pcm chunk) overlapStart concatenated in
    match setAt blended (skipn (Z.to_nat cs) (pcm chunk)) offset with
    | Ok c' => Ok (c', (offset + (len - cs))%Z)
    | Throw e => Throw e
    end
  else
    match setAt concatenated (pcm chunk) offset with
    | Ok c' => Ok (c', (offset + len)%Z)
    | Throw e => Throw e
    end.

Fixpoint concatLoop (m : AudioBufferManager) (cs : list AudioChunk)
    (st : list Q * Z) : result (list Q * Z) :=
  match cs with
  | [] => Ok st
  | c :: rest =>
      match concatStep m st c with
      | Ok st' => concatLoop m rest st'
      | Throw e => Throw e
      end
  end.

Definition totalSamples (cs : list AudioChunk) : nat :=
  fold_left (fun sum chunk => sum + length (pcm chunk))%nat cs 0%nat.

(** The buffer [trimmed] that [getConcatenatedBlob] encodes. *)
Definition concatenatedSamples (m : AudioBufferManager) : result (list Q) :=
  let concatenated := repeat 0 (totalSamples (chunks m)) in
  match concatLoop m (chunks m) (concatenated, 0%Z) with
  | Ok (c', offset) => Ok (sliceTo c' offset)
  | Throw e => Throw e
  end.

Definition getConcatenatedBlob (m : AudioBufferManager) : result Blob :=
  match concatenatedSamples m with
  | Ok trimmed => Ok (wavBlob trimmed (sampleRate m))
  | Throw e => Throw e
  end.

End BufferManager.

(* ===================================================================== *)
(** ** streaming.ts *)
(* ===================================================================== *)

Module Streaming.
Import BufferManager.

Local Open Scope Q_scope.

Inductive SessionState : Type :=
| initializing | streaming | completed | error | cancelled.

(** [streamTotalTime] is the field [totalTime]. *)
Record StreamMetrics : Type := mkStreamMetrics {
  timeToFirstAudio : Q;
  streamTotalTime : Q;
  averageChunkLatency : Q;
  totalChunks : nat;
  totalAudioDuration : Q;
  realTimeFactor : Q;
  chunkMetrics : list ChunkMetrics
}.

(** [id] is the number [n] of the identifier [stream-n]; [sessionMetrics]
    is the field [metrics] and [errorMessage] the field [error]. *)
Record StreamingSession : Type := mkSession {
  id : nat;
  state : SessionState;
  sessionMetrics : option StreamMetrics;
  errorMessage : option JsString.t
}.

Definition setState (st : SessionState) (s : StreamingSession) : StreamingSession :=
  mkSession (id s) st (sessionMetrics s) (errorMessage s).

(** The module-level variables. *)
Record Globals : Type := mkGlobals {
  currentSession : option StreamingSession;
  sessionCounter : nat
}.

Definition isState (st : SessionState) (s : StreamingSession) : bool :=
  match state s, st with
  | initializing, initializing | streaming, streaming | completed, completed
  | error, error | cancelled, cancelled => true
  | _, _ => false
  end.

(** The body of [cancelStream] on the session object. *)
Definition cancelSession (s : StreamingSession) : StreamingSession :=
  if isState streaming s then setState cancelled s else s.

Definition cancelStream (g : Globals) : Globals :=
  match currentSession g with
  | Some s => mkGlobals (Some (cancelSession s)) (sessionCounter g)
  | None => g
  end.

Definition getStreamingSession (g : Globals) : option StreamingSession :=
  currentSession g.

(** [configText] is the field [text]; a voice is known by a number. *)
Record StreamingConfig : Type := mkConfig {
  configText : JsString.t;
  voiceId : nat;
  chunkSize : option nat;
  lookahead : option nat;
  maxLatency : option Q;
  normalizeAudio : option bool
}.

(** Where the run of [predictStream] can be when other code gets to run:
    suspended in the [await]s before the loop, suspended in the [await]s
    of the work on chunk [i], or inside the call [onChunk] for chunk [i]. *)
Inductive Phase : Type :=
| DuringInit
| DuringWork (i : nat)
| InCallback (i : nat).

(** The collaborators of one run: the model loader, the phonemizer and the
    inference engine, the clock, the delivery callback, and the code that
    may call [cancelStream] meanwhile. *)
Record Env : Type := mkEnv {
  (* everything awaited before the loop: the model's sample rate, or throws *)
  loadModel : result Q;
  (* [phonemizeText] then [runInference] on the text of a chunk *)
  synthesize : JsString.t -> result (list Q);
  (* the four times measured for chunk [i] *)
  measured : nat -> ChunkMetrics;
  (* [performance.now() - streamStart] after the loop *)
  wallTime : Q;
  (* whether [onChunk] throws on chunk [i] *)
  onChunkThrows : nat -> option JsError;
  (* whether [cancelStream()] is called during the phase *)
  cancelRequested : Phase -> bool
}.

Definition interfere (env : Env) (p : Phase) (s : StreamingSession)
    : StreamingSession :=
  if cancelRequested env p then cancelSession s else s.

(** The variables of the loop of [predictStream]; [delivered] lists the
    chunks handed to [onChunk], as they were when handed over. *)
Record LoopState : Type := mkLoop {
  session : StreamingSession;
  bufferManager : AudioBufferManager;
  loopMetrics : list ChunkMetrics;
  firstChunkTime : option Q;
  delivered : list AudioChunk
}.

(** [for (const textChunk of textChunks)]; the second component is the
    exception that left the loop, if one did. *)
Fixpoint streamLoop (env : Env) (textChunks : list Chunking.TextChunk)
    (i : nat) (ls : LoopState) : LoopState * option JsError :=
  match textChunks with
  | [] => (ls, None)
  | textChunk :: rest =>
      if isState cancelled (session ls) then (ls, None)     (* break *)
      else
        let s1 := interfere env (DuringWork i) (session ls) in
        match synthesize env (Chunking.text textChunk) with
        | Throw e =>
            (mkLoop s1 (bufferManager ls) (loopMetrics ls)
                    (firstChunkTime ls) (delivered ls), Some e)
        | Ok pcm0 =>
            let m := measured env i in
            let first :=
              match firstChunkTime ls with
              | None => Some (timeToFirstByte m)
              | Some t => Some t
              end in
            let '(bm, audioChunk) :=
              addChunk (bufferManager ls) pcm0 (Chunking.text textChunk) m in
            (* audioChunk.isLast = textChunk.isLast, on the stored object *)
            let audioChunk' := setIsLast (Chunking.isLast textChunk) audioChunk in
            let bm' := withChunks (<[index audioChunk := audioChunk']> (chunks bm)) bm in
            let ls' := mkLoop s1 bm' (loopMetrics ls ++ [m]) first
                              (delivered ls ++ [audioChunk']) in
            (* onChunk(audioChunk) *)
            match onChunkThrows env i with
            | Some e => (ls', Some e)
            | None =>
                let s2 := interfere env (InCallback i) s1 in
                streamLoop env rest (S i)
                  (mkLoop s2 bm' (loopMetrics ls') first (delivered ls'))
            end
        end
  end.

(** What a run leaves behind: the module-level variables, the value
    returned or the exception thrown, and the chunks delivered. *)
Record Run : Type := mkRun {
  globals : Globals;
  outcome : result StreamMetrics;
  deliveredChunks : list AudioChunk
}.

(** The [catch] clause: the session keeps the message of the exception,
    which is thrown again. *)
Definition failRun (counter : nat) (s : StreamingSession)
    (e : JsError) (out : list AudioChunk) : Run :=
  let msg := messageOf e in
  mkRun (mkGlobals (Some (mkSession (id s) error (sessionMetrics s) (Some msg)))
                   counter)
        (Throw e) out.

(** [predictStream], for a run during which no other call of
    [predictStream] replaces the current session. [None]: the call never
    returns, which happens when [createTextChunks] does not. *)
Definition predictStream (env : Env) (config : StreamingConfig) (g : Globals)
    : option Run :=
  let counter := S (sessionCounter g) in
  let s0 := mkSession counter initializing None None in
  let s0 := interfere env DuringInit s0 in
  match loadModel env with
  | Throw e => Some (failRun counter s0 e [])
  | Ok rate =>
      match Chunking.createTextChunks (configText config)
              (default 1%nat (chunkSize config))
              (default 1%nat (lookahead config)) with
      | None => None
      | Some textChunks =>
          let bm :=
            constructor
              (Options.mk (Some rate) (Some true) None
                 (Some (default true (normalizeAudio config))) None) in
          let s1 := setState streaming s0 in
          match streamLoop env textChunks 0 (mkLoop s1 bm [] None []) with
          | (ls, Some e) => Some (failRun counter (session ls) e (delivered ls))
          | (ls, None) =>
              let bm' := finalize (bufferManager ls) in
              let s2 := setState completed (session ls) in
              let totalTime0 := wallTime env in
              let totalAudio := getTotalDuration bm' in
              let cm := loopMetrics ls in
              let streamMetrics :=
                {| timeToFirstAudio := default totalTime0 (firstChunkTime ls);
                   streamTotalTime := totalTime0;
                   averageChunkLatency :=
                     fold_left (fun sum m => sum + totalTime m) cm 0
                     / inject_Z (Z.of_nat (length cm));
                   totalChunks := length cm;
                   totalAudioDuration := totalAudio;
                   realTimeFactor := totalAudio / (totalTime0 / 1000);
                   chunkMetrics := cm |} in
              Some (mkRun
                      (mkGlobals
                         (Some (mkSession (id s2) (state s2) (Some streamMetrics)
                                          (errorMessage s2)))
                         counter)
                      (Ok streamMetrics) (delivered ls))
          end
      end
  end.

(** The state of the current session after a run. *)
Definition finalState (r : Run) : option SessionState :=
  option_map state (currentSession (globals r)).

Definition phase_eqb (p q : Phase) : bool :=
  match p, q with
  | DuringInit, DuringInit => true
  | DuringWork i, DuringWork j => Nat.eqb i j
  | InCallback i, InCallback j => Nat.eqb i j
  | _, _ => false
  end.

(** Collaborators that never fail: a model at 100 Hz, an engine that gives
    two samples of amplitude 0.5 for every text, and a callback that calls
    [cancelStream] while it receives the chunk of index [k], that is after
    [k + 1] chunks have been delivered. *)
Definition cancelInCallback (k : nat) : Env :=
  {| loadModel := Ok 100;
     synthesize := fun _ => Ok [1 # 2; 1 # 2];
     measured := fun _ => someMetrics;
     wallTime := 10;
     onChunkThrows := fun _ => None;
     cancelRequested := fun p => phase_eqb p (InCallback k) |}.

Definition threeSentences : StreamingConfig :=
  mkConfig (JsString.lit "One. Two. Three.") 0 None None None None.

Definition freshGlobals : Globals := mkGlobals None 0.

End Streaming.

(* ===================================================================== *)
(** ** chunking.ts: the advisory utilities *)
(* ===================================================================== *)

Module ChunkHeuristics.
Import JsString.

Local Open Scope Q_scope.

(** [s.split(/\s+/)]: the pieces between the runs of white space, an empty
    piece before a leading run and after a trailing one; [cur] is the piece
    being read and [inRun] tells that the previous code unit belonged to a
    separator. *)
Fixpoint splitFrom (inRun : bool) (cur : JsString.t) (s : JsString.t)
    : list JsString.t :=
  match s with
  | [] => [cur]
  | c :: r =>
      if is_space c
      then (if inRun then splitFrom true [] r else cur :: splitFrom true [] r)
      else splitFrom false (cur ++ [c]) r
  end.

Definition splitSpaces (s : JsString.t) : list JsString.t := splitFrom false [] s.

Definition estimateDuration (text : JsString.t) : Q :=
  let words := length (splitSpaces text) in
  let wordsPerSecond := 150 / 60 in
  inject_Z (Z.of_nat words) / wordsPerSecond.

(** The numbers of the budget are IEEE 754 doubles, whose rounding decides
    where the loop stops: they are values of the Standard Library's
    specification of binary floating-point arithmetic, at 53 bits of
    precision and exponents up to 1024. *)
Definition double : Type := SpecFloat.spec_float.

(** The double of an integer literal. *)
Definition ofZ (z : Z) : double := SpecFloat.binary_normalize 53 1024 z 0 false.

(** [a / b] and [a * b], rounded to the nearest double, ties to even. *)
Definition numDiv (a b : double) : double := SpecFloat.SFdiv 53 1024 a b.
Definition numMul (a b : double) : double := SpecFloat.SFmul 53 1024 a b.

(** The number that a finite double stands for. *)
Definition finiteValue (negative : bool) (m : positive) (e : Z) : Q :=
  (if negative then -1 else 1) * inject_Z (Z.pos m) * 2 ^ e.

Definition valueOf (b : double) : option Q :=
  match b with
  | SpecFloat.S754_zero _ => Some 0
  | SpecFloat.S754_finite negative m e => Some (finiteValue negative m e)
  | SpecFloat.S754_infinity _ | SpecFloat.S754_nan => None
  end.

(** [a > b] for a count [a] and a double [b]. A count is a whole number
    below 2^53, as the length of a string is, so the double that holds it
    is exact, and the comparison of doubles is the comparison of the
    numbers they stand for; nothing is greater than NaN. *)
Definition numGt (a : nat) (b : double) : bool :=
  match b with
  | SpecFloat.S754_nan => false
  | SpecFloat.S754_infinity negative => negative
  | SpecFloat.S754_zero _ => negb (Qle_bool (inject_Z (Z.of_nat a)) 0)
  | SpecFloat.S754_finite negative m e =>
      negb (Qle_bool (inject_Z (Z.of_nat a)) (finiteValue negative m e))
  end.

(** The loop of [calculateOptimalChunkSize] from index [i] on, over the
    sentences not yet visited; the result is [chunkSize] when it ends. *)
Fixpoint sizeLoop (targetWords : double) (sentences : list JsString.t)
    (i wordCount chunkSize : nat) : nat :=
  match sentences with
  | [] => chunkSize
  | sentence :: rest =>
      let sentenceWords := length (splitSpaces sentence) in
      if numGt (wordCount + sentenceWords) targetWords && (0 <? i)%nat
      then chunkSize                                          (* break *)
      else sizeLoop targetWords rest (S i) (wordCount + sentenceWords) (S i)
  end.

(** [(targetLatencyMs / 1000) * estimatedProcessingRate] *)
Definition targetWordsOf (targetLatencyMs estimatedProcessingRate : double)
    : double :=
  numMul (numDiv targetLatencyMs (ofZ 1000)) estimatedProcessingRate.

Definition calculateOptimalChunkSize (text : JsString.t)
    (targetLatencyMs estimatedProcessingRate : double) : nat :=
  let sentences := Chunking.splitIntoSentences text in
  if (length sentences <=? 1)%nat then 1%nat
  else
    let targetWords := targetWordsOf targetLatencyMs estimatedProcessingRate in
    Nat.max 1 (sizeLoop targetWords sentences 0 0 1).

(** A text of two sentences, of 14 and 15 words. *)
Definition twentyNineWords : JsString.t :=
  JsString.lit
    "One two three four five six seven eight nine ten eleven twelve thirteen fourteen. One two three four five six seven eight nine ten eleven twelve thirteen fourteen fifteen.".

End ChunkHeuristics.

(* ===================================================================== *)
(** ** buffer-manager.ts: the player *)
(* ===================================================================== *)

Module Player.

Local Open Scope Q_scope.

(** The fields of [StreamingAudioPlayer]. The audio context is a platform
    object: the model keeps whether the field holds one, and of the gain
    node the value of its gain. *)
Record StreamingAudioPlayer : Type := mkPlayer {
  audioContext : bool;            (* [false] is [null] *)
  scheduledTime : Q;
  isPlaying : bool;
  gainNode : option Q             (* [None] is [null] *)
}.

Definition newPlayer : StreamingAudioPlayer := mkPlayer false 0 false None.

Inductive PlayerError : Type :=
| NotInitialized                  (* the [Error] thrown by [scheduleChunk] *)
| DecodeFailed (e : JsError).     (* what the platform decoder threw *)

(** [initialize()]; [currentTime] is the clock of the context created and
    [gain0] the gain of the node created. *)
Definition initialize (currentTime gain0 : Q) (p : StreamingAudioPlayer)
    : StreamingAudioPlayer :=
  if audioContext p then p
  else mkPlayer true currentTime (isPlaying p) (Some gain0).

(** [scheduleChunk(chunk)], for a call during whose [await]s no other
    method of the player runs. [decoded] is what decoding the blob of the
    chunk gives: the duration of the audio buffer, or an exception;
    [currentTime] is the clock of the context after decoding. The result is
    the player afterwards and the time the source was started at. *)
Definition scheduleChunk (decoded : result Q) (currentTime : Q)
    (p : StreamingAudioPlayer) : StreamingAudioPlayer * (PlayerError + Q) :=
  if negb (audioContext p) || negb (bool_decide (is_Some (gainNode p)))
  then (p, inl NotInitialized)
  else
    match decoded with
    | Throw e => (p, inl (DecodeFailed e))
    | Ok bufferDuration =>
        let playTime := Qmax (scheduledTime p) currentTime in
        (mkPlayer (audioContext p) (playTime + bufferDuration) true (gainNode p),
         inr playTime)
    end.

Definition setVolume (volume : Q) (p : StreamingAudioPlayer)
    : StreamingAudioPlayer :=
  match gainNode p with
  | Some _ =>
      mkPlayer (audioContext p) (scheduledTime p) (isPlaying p)
               (Some (Qmax 0 (Qmin 1 volume)))
  | None => p
  end.

Definition stop (p : StreamingAudioPlayer) : StreamingAudioPlayer :=
  if audioContext p then mkPlayer false 0 false None
  else mkPlayer false 0 false (gainNode p).

Definition getIsPlaying (p : StreamingAudioPlayer) : bool := isPlaying p.

(** A caller that schedules chunks one after the other, each call awaited:
    per chunk the duration decoded and the clock read, and the start times
    obtained; it stops at the first exception. *)
Fixpoint scheduleAll (calls : list (Q * Q)) (p : StreamingAudioPlayer)
    : StreamingAudioPlayer * list Q :=
  match calls with
  | [] => (p, [])
  | (bufferDuration, currentTime) :: rest =>
      match scheduleChunk (Ok bufferDuration) currentTime p with
      | (p', inr playTime) =>
          let '(p'', times) := scheduleAll rest p' in (p'', playTime :: times)
      | (p', inl _) => (p', [])
      end
  end.

End Player.

(* ===================================================================== *)
(** ** streaming.ts: the event variant *)
(* ===================================================================== *)

Module StreamingEvents.
Import BufferManager Streaming.

Inductive StreamEvent : Type :=
| EvStart (sessionId : nat)
| EvChunk (chunk : AudioChunk)
| EvComplete (metrics : StreamMetrics)
| EvError (error : JsString.t)
| EvCancelled.

(** Whether the handler [onEvent] throws when it is given the start event,
    the complete event, the error event; for the chunk events the field
    [onChunkThrows] of the collaborators says it. *)
Record Handler : Type := mkHandler {
  onStartThrows : option JsError;
  onCompleteThrows : option JsError;
  onErrorThrows : option JsError
}.

(** [error instanceof Error ? error.message : String(error)], as in the
    [catch] clause of [predictStream]. *)
Definition errorText (e : JsError) : JsString.t := messageOf e.

(** What a call leaves behind: the module-level variables, the events given
    to the handler in order, and whether the promise resolves or rejects. *)
Record EventRun : Type := mkEventRun {
  eventGlobals : Globals;
  events : list StreamEvent;
  settled : result unit
}.

(** The [catch] clause of [predictStreamEvents]. *)
Definition reportError (h : Handler) (g : Globals) (seen : list StreamEvent)
    (e : JsError) : EventRun :=
  mkEventRun g (seen ++ [EvError (errorText e)])
    (match onErrorThrows h with Some e' => Throw e' | None => Ok tt end).

(** [predictStreamEvents]. [None]: the call never settles, which happens
    when [predictStream] never returns. *)
Definition predictStreamEvents (env : Env) (h : Handler)
    (config : StreamingConfig) (g : Globals) : option EventRun :=
  let sessionId := S (sessionCounter g) in
  let g1 := mkGlobals (currentSession g) sessionId in
  match onStartThrows h with
  | Some e => Some (mkEventRun g1 [EvStart sessionId] (Throw e))
  | None =>
      match predictStream env config g1 with
      | None => None
      | Some r =>
          let seen := EvStart sessionId :: List.map EvChunk (deliveredChunks r) in
          match outcome r with
          | Ok metrics =>
              match onCompleteThrows h with
              | None =>
                  Some (mkEventRun (globals r) (seen ++ [EvComplete metrics]) (Ok tt))
              | Some e =>
                  Some (reportError h (globals r) (seen ++ [EvComplete metrics]) e)
              end
          | Throw e => Some (reportError h (globals r) seen e)
          end
      end
  end.

End StreamingEvents.

(* ===================================================================== *)
(** ** Notions the properties of the chunker are stated with *)
(* ===================================================================== *)

Module TextNotions.
Import JsString Chunking.

Definition nonSpace (c : N) : bool := negb (is_space c).

(** The code units of a string that are not white space, in order. *)
Definition inkOf (s : JsString.t) : JsString.t := List.filter nonSpace s.

(** A string that does not begin with white space. *)
Definition headOk (s : JsString.t) : Prop :=
  match s with [] => True | c :: _ => is_space c = false end.

(** A string that does not end with white space. *)
Definition lastOk (s : JsString.t) : Prop := headOk (rev s).

(** The text the splitter works on: trimmed, runs of white space
    collapsed. *)
Definition normalize (t : JsString.t) : JsString.t := collapseSpaces (trim t).

(** Chunks made in order: the one at position [j] is the one the loop body
    of [createTextChunks] makes at sentence [j * chunkSize] from the chunks
    before it. *)
Definition madeInOrder (sentences : list JsString.t) (chunkSize lookahead : nat)
    (chunks : list TextChunk) : Prop :=
  forall j c,
    chunks !! j = Some c ->
    c = makeChunk sentences chunkSize lookahead (j * chunkSize) (take j chunks).

End TextNotions.

(* ===================================================================== *)
(** ** Notions the further properties are stated with *)
(* ===================================================================== *)

Module SampleNotions.
Import JsString.

(** The number of words [calculateOptimalChunkSize] counts in a run of
    sentences. *)
Definition wordsIn (sentences : list JsString.t) : nat :=
  list_sum (List.map (fun s => length (ChunkHeuristics.splitSpaces s)) sentences).

(** A word: not empty, and free of white space. *)
Definition isWord (w : JsString.t) : Prop :=
  w <> [] /\ forallb (fun c => negb (is_space c)) w = true.

(** Two chunk records that differ in their samples and encoded form at
    most, and hold equally many samples. *)
Definition sameButSamples (c r : BufferManager.AudioChunk) : Prop :=
  BufferManager.index c = BufferManager.index r
  /\ BufferManager.startTime c = BufferManager.startTime r
  /\ BufferManager.duration c = BufferManager.duration r
  /\ BufferManager.isFirst c = BufferManager.isFirst r
  /\ BufferManager.isLast c = BufferManager.isLast r
  /\ BufferManager.text c = BufferManager.text r
  /\ BufferManager.metrics c = BufferManager.metrics r
  /\ length (BufferManager.pcm c) = length (BufferManager.pcm r).

End SampleNotions.

(* ===================================================================== *)
(** ** Collaborators for the further properties of the session *)
(* ===================================================================== *)

Module StreamingNotions.
Import BufferManager Streaming.

Local Open Scope Q_scope.

(** Collaborators that never fail and never cancel. *)
Definition quiet : Env :=
  {| loadModel := Ok 100;
     synthesize := fun _ => Ok [1 # 2; 1 # 2];
     measured := fun _ => someMetrics;
     wallTime := 10;
     onChunkThrows := fun _ => None;
     cancelRequested := fun _ => false |}.

(** As [cancelInCallback], but [cancelStream] is called while chunk [k] is
    being synthesized. *)
Definition cancelDuringWork (k : nat) : Env :=
  {| loadModel := Ok 100;
     synthesize := fun _ => Ok [1 # 2; 1 # 2];
     measured := fun _ => someMetrics;
     wallTime := 10;
     onChunkThrows := fun _ => None;
     cancelRequested := fun p => phase_eqb p (DuringWork k) |}.

(** Collaborators whose engine throws on the text [bad]. *)
Definition failingOn (bad : JsString.t) (e : JsError) : Env :=
  {| loadModel := Ok 100;
     synthesize := fun t => if JsString.eqb t bad then Throw e
                            else Ok [1 # 2; 1 # 2];
     measured := fun _ => someMetrics;
     wallTime := 10;
     onChunkThrows := fun _ => None;
     cancelRequested := fun _ => false |}.

(** The same collaborators, with a call of [cancelStream] added while the
    model is loading. *)
Definition withInitCancel (env : Env) : Env :=
  {| loadModel := loadModel env;
     synthesize := synthesize env;
     measured := measured env;
     wallTime := wallTime env;
     onChunkThrows := onChunkThrows env;
     cancelRequested := fun p => phase_eqb p DuringInit || cancelRequested env p |}.

(** The variables of the loop after a turn that delivered its chunk:
    [pcm0] is what the engine returned for the text chunk. *)
Definition advance (env : Env) (textChunk : Chunking.TextChunk) (i : nat)
    (ls : LoopState) (pcm0 : list Q) : LoopState :=
  let m := measured env i in
  let added := addChunk (bufferManager ls) pcm0 (Chunking.text textChunk) m in
  let chunk := setIsLast (Chunking.isLast textChunk) (snd added) in
  mkLoop (interfere env (InCallback i) (interfere env (DuringWork i) (session ls)))
         (withChunks (<[index (snd added) := chunk]> (chunks (fst added)))
                     (fst added))
         (loopMetrics ls ++ [m])
         (match firstChunkTime ls with
          | None => Some (timeToFirstByte m)
          | Some t => Some t
          end)
         (delivered ls ++ [chunk]).

(** The chunk a turn delivers. *)
Definition deliveredBy (env : Env) (textChunk : Chunking.TextChunk) (i : nat)
    (ls : LoopState) (pcm0 : list Q) : AudioChunk :=
  setIsLast (Chunking.isLast textChunk)
    (snd (addChunk (bufferManager ls) pcm0 (Chunking.text textChunk)
            (measured env i))).

(** The books of the loop agree with what was delivered. *)
Definition booksAgree (ls : LoopState) : Prop :=
  loopMetrics ls = List.map metrics (delivered ls)
  /\ totalDuration (bufferManager ls)
     = fold_left Qplus (List.map duration (delivered ls)) 0.

End StreamingNotions.

(* ===================================================================== *)
(** ** Properties of the chunker *)
(* ===================================================================== *)

Module ChunkingSpec.
Import JsString Chunking.

(** C2. On the text [Wait... really?] the detector returns two
    boundaries, 6 and 14: the last period of the ellipsis, which is
    followed by a space, is taken for a sentence end, and the text is cut
    after the ellipsis. The test for an ellipsis only looks at the two
    characters that follow a period, so it spares the first period of the
    three and no other. *)
Theorem detect_ellipsis_last_period :
  detectSentenceBoundaries (lit "Wait... really?") = [6; 14]
  /\ isSentenceBoundary (lit "Wait... really?") 4 = false
  /\ isSentenceBoundary (lit "Wait... really?") 5 = false
  /\ isSentenceBoundary (lit "Wait... really?") 6 = true
  /\ splitIntoSentences (lit "Wait... really?") = [lit "Wait..."; lit "really?"].
Proof. repeat split; vm_compute; reflexivity. Qed.

(** C3. On the text of the documentation the splitter returns three
    sentences, not two: the period of [Dr.] is followed by a space and a
    capital letter, which makes the period after an abbreviation a
    sentence end. Nothing is cut inside [3:30] or after [p.]. *)
Theorem split_abbreviation_example :
  splitIntoSentences
    (lit "Dr. Smith arrived at 3:30 p.m. The meeting was productive.")
  = [lit "Dr."; lit "Smith arrived at 3:30 p.m.";
     lit "The meeting was productive."]
  /\ detectSentenceBoundaries
       (lit "Dr. Smith arrived at 3:30 p.m. The meeting was productive.")
     = [2; 29; 57].
Proof. split; vm_compute; reflexivity. Qed.

(** C8. A text that splits into exactly three sentences gives, with one
    sentence per chunk and one sentence of context, exactly three chunks,
    numbered 0, 1, 2; the first is flagged first and the last last; the
    second has the first sentence as previous context and the third as
    lookahead; the first has no previous context and the third no
    lookahead. *)
Theorem createTextChunks_three_sentences (t s1 s2 s3 : JsString.t) :
  splitIntoSentences t = [s1; s2; s3] ->
  createTextChunks t 1 1 =
    Some [ mkTextChunk s1 0 true false None (Some s2);
           mkTextChunk s2 1 false false (Some s1) (Some s3);
           mkTextChunk s3 2 false true (Some s2) None ].
Proof.
  intros Hsplit. unfold createTextChunks. rewrite Hsplit.
  reflexivity.
Qed.

Lemma createTextChunks_three_sentences_witness :
  splitIntoSentences (lit "One. Two. Three.")
    = [lit "One."; lit "Two."; lit "Three."]
  /\ createTextChunks (lit "One. Two. Three.") 1 1 =
       Some [ mkTextChunk (lit "One.") 0 true false None (Some (lit "Two."));
              mkTextChunk (lit "Two.") 1 false false
                          (Some (lit "One.")) (Some (lit "Three."));
              mkTextChunk (lit "Three.") 2 false true (Some (lit "Two.")) None ].
Proof.
  split.
  - vm_compute. reflexivity.
  - apply (createTextChunks_three_sentences
             (lit "One. Two. Three.") (lit "One.") (lit "Two.") (lit "Three.")).
    vm_compute. reflexivity.
Defined.

End ChunkingSpec.

(* ===================================================================== *)
(** ** Properties of the buffer manager *)
(* ===================================================================== *)

Module BufferManagerSpec.
Import BufferManager.

Local Open Scope Q_scope.

(** *** Duration accounting *)

Lemma addChunk_totalDuration m p t x :
  totalDuration (fst (addChunk m p t x))
  = totalDuration m + duration (snd (addChunk m p t x)).
Proof. reflexivity. Qed.

Lemma addChunk_startTime m p t x :
  startTime (snd (addChunk m p t x)) = totalDuration m.
Proof. reflexivity. Qed.

Lemma addChunks_length m inputs :
  length (snd (addChunks m inputs)) = length inputs.
Proof.
  revert m. induction inputs as [|[[p t] x] rest IH]; intros m; [reflexivity|].
  cbn [addChunks].
  destruct (addChunk m p t x) as [m1 c] eqn:E1.
  specialize (IH m1). destruct (addChunks m1 rest) as [m2 cs].
  cbn in *. now rewrite IH.
Qed.

(** The running total after the calls is the total before them with the
    durations of the chunks returned added to it one after the other, and
    each chunk starts at the total reached before its own call. *)
Lemma addChunks_accounting m inputs :
  totalDuration (fst (addChunks m inputs))
  = fold_left Qplus (List.map duration (snd (addChunks m inputs))) (totalDuration m)
  /\ forall i c,
       snd (addChunks m inputs) !! i = Some c ->
       startTime c
       = fold_left Qplus
           (List.map duration (take i (snd (addChunks m inputs))))
           (totalDuration m).
Proof.
  revert m. induction inputs as [|[[p t] x] rest IH]; intros m.
  - split; [reflexivity|]. intros i c H. destruct i; discriminate H.
  - cbn [addChunks].
    pose proof (addChunk_totalDuration m p t x) as Htot.
    pose proof (addChunk_startTime m p t x) as Hstart.
    destruct (addChunk m p t x) as [m1 c1].
    destruct (IH m1) as [IHtot IHstart].
    destruct (addChunks m1 rest) as [m2 cs].
    cbn [fst snd] in *. split.
    + cbn [List.map fold_left]. rewrite IHtot, Htot. reflexivity.
    + intros [|i] c H.
      * cbn in H. injection H as <-. cbn. exact Hstart.
      * cbn in H. cbn [take List.map fold_left].
        rewrite (IHstart i c H), Htot. reflexivity.
Qed.

(** C5. After any sequence of [addChunk] calls on a new manager, whatever
    its options, [getTotalDuration] is the sum of the durations of the
    chunks returned (added in order, from zero), and the chunk returned by
    the call number [i] starts at the sum of the durations returned before
    it. *)
Theorem totalDuration_is_sum_of_durations
    (options : Options.t) (inputs : list ChunkInput) :
  let m := fst (addChunks (constructor options) inputs) in
  let returned := snd (addChunks (constructor options) inputs) in
  length returned = length inputs
  /\ getTotalDuration m = fold_left Qplus (List.map duration returned) 0
  /\ forall i c,
       returned !! i = Some c ->
       startTime c = fold_left Qplus (List.map duration (take i returned)) 0.
Proof.
  cbv zeta. split; [apply addChunks_length|].
  exact (addChunks_accounting (constructor options) inputs).
Qed.

(** *** finalize *)

Lemma alter_last {A} (f : A -> A) (init : list A) (c : A) :
  alter f (length (init ++ [c]) - 1)%nat (init ++ [c]) = init ++ [f c].
Proof.
  rewrite length_app. cbn [length].
  replace (length init + 1 - 1)%nat with (length init + 0)%nat by lia.
  rewrite alter_app_r. reflexivity.
Qed.

Lemma finalize_snoc m init c :
  finalize (withChunks (init ++ [c]) m)
  = withChunks (init ++ [setIsLast true c]) m.
Proof.
  unfold finalize. cbn [chunks withChunks].
  destruct (0 <? length (init ++ [c]))%nat eqn:E.
  - rewrite alter_last. reflexivity.
  - apply Nat.ltb_ge in E. rewrite length_app in E. cbn in E. lia.
Qed.

Lemma withChunks_chunks m : withChunks (chunks m) m = m.
Proof. destruct m; reflexivity. Qed.

(** A chunk is stored with [isLast] unset, and the fade applied to the
    chunk before it leaves the flag alone. *)
Lemma addChunk_flags m p t x :
  Forall (fun c => isLast c = false) (chunks m) ->
  Forall (fun c => isLast c = false) (chunks (fst (addChunk m p t x)))
  /\ length (chunks (fst (addChunk m p t x))) = S (length (chunks m)).
Proof.
  intros Hall. cbn [addChunk fst chunks]. split.
  - apply Forall_app. split; [| repeat constructor].
    destruct (crossfade m && negb (Nat.eqb (length (chunks m)) 0)
              && (0 <? length (chunks m))%nat); [| exact Hall].
    apply Forall_alter; [exact Hall | intros c _ Hc; exact Hc].
  - rewrite length_app.
    destruct (crossfade m && negb (Nat.eqb (length (chunks m)) 0)
              && (0 <? length (chunks m))%nat);
      rewrite ?length_alter; cbn [length]; lia.
Qed.

Lemma addChunks_flags inputs :
  forall m,
    Forall (fun c => isLast c = false) (chunks m) ->
    Forall (fun c => isLast c = false) (chunks (fst (addChunks m inputs)))
    /\ length (chunks (fst (addChunks m inputs)))
       = (length (chunks m) + length inputs)%nat.
Proof.
  induction inputs as [|[[p t] x] rest IH]; intros m Hall.
  - cbn. split; [exact Hall | lia].
  - cbn [addChunks].
    destruct (addChunk_flags m p t x Hall) as [H1 H2].
    destruct (addChunk m p t x) as [m1 c1]. cbn [fst] in H1, H2.
    destruct (IH m1 H1) as [H3 H4].
    destruct (addChunks m1 rest) as [m2 cs]. cbn [fst length] in *.
    split; [exact H3 | lia].
Qed.

Lemma map_isLast_unset (l : list AudioChunk) :
  Forall (fun c => isLast c = false) l ->
  List.map isLast l = repeat false (length l).
Proof.
  induction 1 as [|c l Hc _ IH]; [reflexivity|].
  cbn. now rewrite Hc, IH.
Qed.

(** C7. [finalize] does nothing to a manager without chunks; on a manager
    whose chunks are [init] followed by [c] it sets [isLast] on [c], leaves
    every chunk of [init] and every other field as it was; a second call
    changes nothing more; and after any non-empty sequence of [addChunk]
    calls on a new manager, the last chunk is the only one flagged. *)
Theorem finalize_marks_last_only (m : AudioBufferManager)
    (init : list AudioChunk) (c : AudioChunk)
    (options : Options.t) (x : ChunkInput) (xs : list ChunkInput) :
  finalize (withChunks [] m) = withChunks [] m
  /\ finalize (withChunks (init ++ [c]) m)
     = withChunks (init ++ [setIsLast true c]) m
  /\ isLast (setIsLast true c) = true
  /\ finalize (finalize m) = finalize m
  /\ List.map isLast
       (chunks (finalize (fst (addChunks (constructor options) (x :: xs)))))
     = repeat false (length xs) ++ [true].
Proof.
  split; [reflexivity|]. split; [apply finalize_snoc|]. split; [reflexivity|].
  split.
  - rewrite <- (withChunks_chunks m).
    destruct (chunks m) as [|c0 rest _] using rev_ind; [reflexivity|].
    rewrite finalize_snoc.
    change (withChunks (rest ++ [setIsLast true c0]) m)
      with (withChunks (rest ++ [setIsLast true (setIsLast true c0)]) m) at 2.
    apply finalize_snoc.
  - destruct (addChunks_flags (x :: xs) (constructor options)) as [Hall Hlen];
      [constructor|].
    set (m1 := fst (addChunks (constructor options) (x :: xs))) in *.
    rewrite <- (withChunks_chunks m1).
    destruct (chunks m1) as [|c0 rest _] using rev_ind;
      [cbn in Hlen; discriminate Hlen|].
    rewrite finalize_snoc. cbn [chunks withChunks].
    apply Forall_app in Hall. destruct Hall as [Hrest _].
    rewrite length_app in Hlen. cbn in Hlen.
    rewrite map_app, (map_isLast_unset rest Hrest). cbn [List.map].
    replace (length xs) with (length rest) by lia. reflexivity.
Qed.

(** *** Configuration *)

Lemma Qfloor_sign (x : Q) :
  ((Qfloor x < 0)%Z -> x < 0)
  /\ (x <= -1 -> (Qfloor x <= -1)%Z)
  /\ (x == 0 -> Qfloor x = 0%Z).
Proof.
  split; [| split].
  - intros H. apply Qnot_le_lt. intros Hx.
    apply Qfloor_resp_le in Hx. change (Qfloor 0) with 0%Z in Hx. lia.
  - intros H. apply Qfloor_resp_le in H. exact H.
  - intros H. rewrite (Qfloor_comp x 0 H). reflexivity.
Qed.

Lemma Qmult_neg_signs (a b : Q) :
  a * b < 0 -> (a < 0 /\ 0 < b) \/ (0 < a /\ b < 0).
Proof.
  intros H.
  destruct (Qlt_le_dec a 0) as [Ha|Ha]; destruct (Qlt_le_dec 0 b) as [Hb|Hb].
  - left. split; assumption.
  - exfalso.
    assert (0 <= (- a) * (- b)) by (apply Qmult_le_0_compat; lra).
    assert (E : a * b == (- a) * (- b)) by ring. lra.
  - destruct (Qle_lt_or_eq _ _ Ha) as [Ha'|Ha'].
    + exfalso. assert (0 <= a * b) by (apply Qmult_le_0_compat; lra). lra.
    + exfalso. assert (E : a * b == 0) by (rewrite <- Ha'; ring). lra.
  - destruct (Qle_lt_or_eq _ _ Ha) as [Ha'|Ha'];
      destruct (Qle_lt_or_eq _ _ Hb) as [Hb'|Hb'].
    + right. split; assumption.
    + exfalso. assert (E : a * b == 0) by (rewrite Hb'; ring). lra.
    + exfalso. assert (E : a * b == 0) by (rewrite <- Ha'; ring). lra.
    + exfalso. assert (E : a * b == 0) by (rewrite Hb'; ring). lra.
Qed.

(** C9, as the code has it. The constructor checks nothing: every
    configuration gives a manager, which keeps the sample rate it was
    given and derives the cross-fade length from it, also when the rate or
    the duration is negative: for the default duration the length is the
    number of samples in 20 ms at the rate given. The length is negative
    only when one of the two is negative and the other positive; it is
    negative, -1 or less, whenever their product is -1000 or less; and it
    is 0 when one of the two is 0. *)
Theorem constructor_accepts_every_configuration (options : Options.t) :
  let rate := default 22050 (Options.sampleRate options) in
  let duration := default 20 (Options.crossfadeDuration options) in
  exists m,
    new options = Ok m
    /\ sampleRate m = rate
    /\ chunks m = [] /\ totalDuration m = 0
    /\ (Options.crossfadeDuration options = None ->
        crossfadeSamples m = Qfloor (20 * rate / 1000))
    /\ ((crossfadeSamples m < 0)%Z ->
        (duration < 0 /\ 0 < rate) \/ (0 < duration /\ rate < 0))
    /\ (duration * rate <= -1000 -> (crossfadeSamples m <= -1)%Z)
    /\ (duration == 0 \/ rate == 0 -> crossfadeSamples m = 0%Z).
Proof.
  cbv zeta. exists (constructor options).
  set (rate := default 22050 (Options.sampleRate options)).
  set (duration := default 20 (Options.crossfadeDuration options)).
  change (crossfadeSamples (constructor options))
    with (Qfloor (duration * rate / 1000)).
  destruct (Qfloor_sign (duration * rate / 1000)) as (Hneg & Hlow & Hzero).
  repeat split.
  - intros H. subst duration. rewrite H. reflexivity.
  - intros H. apply Hneg in H. apply Qmult_neg_signs.
    assert (E : duration * rate == duration * rate / 1000 * 1000) by field.
    rewrite E.
    assert (Hpos : 0 <= - (duration * rate / 1000) * 1000)
      by (apply Qmult_le_0_compat; lra).
    lra.
  - intros H. apply Hlow. apply Qle_shift_div_r; [reflexivity | lra].
  - intros H. apply Hzero.
    assert (E : duration * rate == 0) by (destruct H as [H|H]; rewrite H; ring).
    rewrite E. reflexivity.
Qed.

(** C9, as the specification has it, fails: a negative sample rate and a
    negative cross-fade duration are accepted. *)
Lemma constructor_negative_configuration_accepted :
  let negativeRate := Options.mk (Some (-22050)) None None None None in
  let negativeDuration := Options.mk None None (Some (-20)) None None in
  (forall e, new negativeRate <> Throw e)
  /\ (forall e, new negativeDuration <> Throw e)
  /\ option_map sampleRate
       (match new negativeRate with Ok m => Some m | Throw _ => None end)
     = Some (-22050)
  /\ option_map crossfadeSamples
       (match new negativeRate with Ok m => Some m | Throw _ => None end)
     = Some (-441)%Z
  /\ option_map crossfadeSamples
       (match new negativeDuration with Ok m => Some m | Throw _ => None end)
     = Some (-441)%Z.
Proof. cbv zeta. repeat split; try discriminate; vm_compute; reflexivity. Qed.

(** C10. [setSampleRate r] sets the cross-fade length to the number of
    samples in 20 ms at rate [r], whatever the manager held before: the
    [crossfadeDuration] given to the constructor plays no part. *)
Theorem setSampleRate_resets_crossfade (options : Options.t) (r : Q) :
  crossfadeSamples (setSampleRate r (constructor options)) = Qfloor (20 * r / 1000)
  /\ sampleRate (setSampleRate r (constructor options)) = r
  /\ forall m, crossfadeSamples (setSampleRate r m) = Qfloor (20 * r / 1000).
Proof. repeat split. Qed.

(** A 50 ms cross-fade at 22050 Hz is 1102 samples long; setting the same
    rate again makes it 441. *)
Example setSampleRate_discards_custom_duration :
  let m := constructor (Options.mk (Some 22050) None (Some 50) None None) in
  crossfadeSamples m = 1102%Z
  /\ crossfadeSamples (setSampleRate 22050 m) = 441%Z.
Proof. split; vm_compute; reflexivity. Qed.

(** *** Normalization *)

Lemma Qgtb_true a b : Qgtb a b = true <-> b < a.
Proof.
  unfold Qgtb. rewrite negb_true_iff, <- not_true_iff_false, Qle_bool_iff.
  split; [apply Qnot_le_lt | apply Qlt_not_le].
Qed.

Lemma peakStep_cases peak x :
  (peak < Qabs x /\ peakStep peak x = Qabs x)
  \/ (Qabs x <= peak /\ peakStep peak x = peak).
Proof.
  unfold peakStep. destruct (Qgtb (Qabs x) peak) eqn:E.
  - left. split; [now apply Qgtb_true | reflexivity].
  - right. split; [| reflexivity].
    apply Qnot_lt_le. intros H. apply Qgtb_true in H. congruence.
Qed.

Lemma peak_fold_ge l p : p <= fold_left peakStep l p.
Proof.
  revert p. induction l as [|x l IH]; intros p; cbn [fold_left].
  - apply Qle_refl.
  - destruct (peakStep_cases p x) as [[H ->]|[H ->]]; [| apply IH].
    apply Qle_trans with (Qabs x); [now apply Qlt_le_weak | apply IH].
Qed.

Lemma peak_fold_bounds l p x :
  In x l -> Qabs x <= fold_left peakStep l p.
Proof.
  revert p. induction l as [|y l IH]; intros p; [intros []|].
  intros [->|Hin]; cbn [fold_left]; [| now apply IH].
  destruct (peakStep_cases p x) as [[H ->]|[H ->]].
  - apply peak_fold_ge.
  - apply Qle_trans with p; [exact H | apply peak_fold_ge].
Qed.

Lemma peak_fold_attained l p :
  fold_left peakStep l p = p
  \/ exists x, In x l /\ fold_left peakStep l p = Qabs x.
Proof.
  revert p. induction l as [|y l IH]; intros p; cbn [fold_left]; [now left|].
  destruct (peakStep_cases p y) as [[H E]|[H E]]; rewrite E.
  - destruct (IH (Qabs y)) as [->|(x & Hin & ->)].
    + right. exists y. split; [now left | reflexivity].
    + right. exists x. split; [now right | reflexivity].
  - destruct (IH p) as [->|(x & Hin & ->)]; [now left|].
    right. exists x. split; [now right | reflexivity].
Qed.

Lemma peak_fold_upper l p M :
  p <= M -> (forall x, In x l -> Qabs x <= M) -> fold_left peakStep l p <= M.
Proof.
  intros Hp Hall.
  destruct (peak_fold_attained l p) as [->|(x & Hin & ->)]; auto.
Qed.

(** The peak found is the largest absolute value in the array, and zero
    for an empty one. *)
Lemma findPeak_nonneg l : 0 <= findPeak l.
Proof. apply peak_fold_ge. Qed.

(** The absolute value of a clamped number. *)
Lemma Qabs_clamp v : Qabs (clamp v) == Qmin 1 (Qabs v).
Proof.
  unfold clamp.
  destruct (Qlt_le_dec v (-1)) as [Hlo|Hlo].
  - rewrite (Q.min_r 1 v) by lra. rewrite (Q.max_l (-1) v) by lra.
    rewrite (Qabs_neg v) by lra. rewrite (Q.min_l 1 (- v)) by lra.
    reflexivity.
  - destruct (Qlt_le_dec 1 v) as [Hhi|Hhi].
    + rewrite (Q.min_l 1 v) by lra. rewrite (Q.max_r (-1) 1) by lra.
      rewrite (Qabs_pos v) by lra. rewrite (Q.min_l 1 v) by lra. reflexivity.
    + rewrite (Q.min_r 1 v) by lra. rewrite (Q.max_r (-1) v) by lra.
      rewrite (Q.min_r 1 (Qabs v)); [reflexivity|].
      apply Qabs_Qle_condition. split; lra.
Qed.

Lemma normalizeAudio_unchanged m l :
  findPeak l == 0 \/ targetPeak m <= findPeak l -> normalizeAudio m l = l.
Proof.
  intros H. unfold normalizeAudio.
  destruct (Qeq_bool (findPeak l) 0) eqn:E0; [reflexivity|].
  destruct (Qgeb (findPeak l) (targetPeak m)) eqn:E1; [reflexivity|].
  exfalso. destruct H as [H|H].
  - apply Qeq_bool_iff in H. congruence.
  - unfold Qgeb in E1. apply Qle_bool_iff in H. congruence.
Qed.

Lemma normalizeAudio_scaled m l :
  ~ findPeak l == 0 -> findPeak l < targetPeak m ->
  normalizeAudio m l
  = List.map (fun x => clamp (x * (targetPeak m / findPeak l))) l.
Proof.
  intros H0 Hlt. unfold normalizeAudio.
  destruct (Qeq_bool (findPeak l) 0) eqn:E0.
  - apply Qeq_bool_iff in E0. contradiction.
  - destruct (Qgeb (findPeak l) (targetPeak m)) eqn:E1; [|reflexivity].
    unfold Qgeb in E1. apply Qle_bool_iff in E1. lra.
Qed.

(** The absolute value of a scaled and clamped sample. *)
Lemma Qabs_scaled x p t :
  0 < p -> 0 < t ->
  Qabs (clamp (x * (t / p))) == Qmin 1 (Qabs x * (t / p)).
Proof.
  intros Hp Ht. rewrite Qabs_clamp, Qabs_Qmult.
  assert (Hg : 0 <= t / p).
  { apply Qlt_le_weak. apply Qlt_shift_div_l; [exact Hp | lra]. }
  rewrite (Qabs_pos (t / p) Hg). reflexivity.
Qed.

(** C6, as the code has it. When the peak of the input is zero or at
    least the target, the array is returned as it is. When the peak is
    non-zero and below the target, the peak of the output is the target
    capped at 1, since every scaled sample is clamped to the interval from
    -1 to 1: it is the target itself for a target of at most 1. The
    arithmetic is exact here. *)
Theorem normalizeAudio_peak (m : AudioBufferManager) (l : list Q) :
  (findPeak l == 0 \/ targetPeak m <= findPeak l -> normalizeAudio m l = l)
  /\ (~ findPeak l == 0 -> findPeak l < targetPeak m ->
      findPeak (normalizeAudio m l) == Qmin 1 (targetPeak m)
      /\ (targetPeak m <= 1 ->
          findPeak (normalizeAudio m l) == targetPeak m)).
Proof.
  split; [apply normalizeAudio_unchanged|].
  intros H0 Hlt.
  assert (Hp : 0 < findPeak l).
  { pose proof (findPeak_nonneg l) as Hge.
    destruct (Qle_lt_or_eq _ _ Hge) as [H|H]; [exact H|].
    exfalso. apply H0. symmetry. exact H. }
  assert (Ht : 0 < targetPeak m) by lra.
  assert (Hmain : findPeak (normalizeAudio m l) == Qmin 1 (targetPeak m)).
  { rewrite (normalizeAudio_scaled m l H0 Hlt).
    set (p := findPeak l) in *. set (t := targetPeak m) in *.
    assert (Hpg : p * (t / p) == t) by (apply Qmult_div_r; lra).
    assert (Hg : 0 <= t / p).
    { apply Qlt_le_weak. apply Qlt_shift_div_l; [exact Hp | lra]. }
    apply Qle_antisym.
    - apply peak_fold_upper.
      + apply Q.min_glb; lra.
      + intros y Hy. apply in_map_iff in Hy. destruct Hy as (x & <- & Hx).
        rewrite (Qabs_scaled x p t Hp Ht).
        apply Q.min_le_compat_l.
        apply Qle_trans with (p * (t / p)); [| rewrite Hpg; apply Qle_refl].
        apply Qmult_le_compat_r; [| exact Hg].
        apply (peak_fold_bounds l 0 x Hx).
    - destruct (peak_fold_attained l 0) as [E|(x & Hx & E)].
      + exfalso. apply H0. fold (findPeak l) in E. subst p. rewrite E. reflexivity.
      + fold (findPeak l) in E. fold p in E.
        assert (Hy : In (clamp (x * (t / p)))
                        (List.map (fun x => clamp (x * (t / p))) l)).
        { apply in_map_iff. exists x. split; [reflexivity | exact Hx]. }
        apply (peak_fold_bounds _ 0) in Hy.
        unfold findPeak. eapply Qle_trans; [| exact Hy].
        rewrite (Qabs_scaled x p t Hp Ht), <- E, Hpg. apply Qle_refl. }
  split; [exact Hmain|].
  intros H1. rewrite Hmain. apply Q.min_r. exact H1.
Qed.

Lemma normalizeAudio_peak_witness :
  let m := constructor Options.empty in
  normalizeAudio m [0; 0] = [0; 0]
  /\ findPeak (normalizeAudio m [1 # 2; - (1 # 4)]) == 95 # 100.
Proof.
  cbv zeta. split.
  - apply (proj1 (normalizeAudio_peak (constructor Options.empty) [0; 0])).
    left. vm_compute. reflexivity.
  - apply (proj2 (normalizeAudio_peak (constructor Options.empty)
                    [1 # 2; - (1 # 4)])).
    + vm_compute. intros H. discriminate H.
    + vm_compute. reflexivity.
    + vm_compute. intros H. discriminate H.
Defined.

(** C6, as the specification has it, fails for a target above 1: the
    input [0.5] has peak 0.5, below the target 2, and comes out as [1],
    the clamped value of 0.5 * 4. All the numbers involved are floating
    point numbers, so that the run is the same in the source. *)
Lemma normalizeAudio_peak_clamped :
  let m := constructor (Options.mk None None None None (Some 2)) in
  normalize m = true
  /\ ~ findPeak [1 # 2] == 0
  /\ findPeak [1 # 2] < targetPeak m
  /\ findPeak (normalizeAudio m [1 # 2]) == 1
  /\ ~ findPeak (normalizeAudio m [1 # 2]) == targetPeak m.
Proof.
  cbv zeta. repeat split; try (vm_compute; reflexivity);
    vm_compute; intros H; discriminate H.
Qed.

(** *** Concatenation *)

Lemma totalSamples_from (cs : list AudioChunk) (a : nat) :
  fold_left (fun sum chunk => sum + length (pcm chunk))%nat cs a
  = (a + totalSamples cs)%nat.
Proof.
  unfold totalSamples. revert a.
  induction cs as [|c cs IH]; intros a; cbn [fold_left]; [lia|].
  rewrite (IH (a + length (pcm c))%nat), (IH (0 + length (pcm c))%nat). lia.
Qed.

Lemma totalSamples_cons c cs :
  totalSamples (c :: cs) = (length (pcm c) + totalSamples cs)%nat.
Proof. unfold totalSamples at 1. cbn [fold_left]. apply totalSamples_from. Qed.

Lemma setAt_fits target src offset :
  (0 <= offset)%Z ->
  (Z.of_nat (length src) + offset <= Z.of_nat (length target))%Z ->
  exists c, setAt target src offset = Ok c /\ length c = length target.
Proof.
  intros H0 Hfit. unfold setAt.
  destruct (offset <? 0)%Z eqn:E1; [apply Z.ltb_lt in E1; lia|].
  destruct (Z.of_nat (length target) <? Z.of_nat (length src) + offset)%Z eqn:E2;
    [apply Z.ltb_lt in E2; lia|].
  cbn [orb]. eexists. split; [reflexivity|].
  rewrite !length_app, length_take, length_drop. lia.
Qed.

Lemma blendStep_length cs incoming overlapStart conc i :
  length (blendStep cs incoming overlapStart conc i) = length conc.
Proof.
  unfold blendStep.
  destruct (0 <=? overlapStart + Z.of_nat i)%Z; [|reflexivity].
  destruct (conc !! _); [|reflexivity].
  destruct (incoming !! i); [|reflexivity].
  apply length_insert.
Qed.

Lemma blendOverlap_length cs incoming overlapStart conc :
  length (blendOverlap cs incoming overlapStart conc) = length conc.
Proof.
  unfold blendOverlap.
  generalize (seq 0 (Z.to_nat (Z.min cs (Z.of_nat (length incoming))))).
  intros l. revert conc.
  induction l as [|i l IH]; intros conc; cbn [fold_left]; [reflexivity|].
  rewrite IH. apply blendStep_length.
Qed.

Lemma blendStep_elsewhere cs incoming overlapStart conc i (j : nat) :
  Z.of_nat j <> (overlapStart + Z.of_nat i)%Z ->
  blendStep cs incoming overlapStart conc i !! j = conc !! j.
Proof.
  intros Hne. unfold blendStep.
  destruct (0 <=? overlapStart + Z.of_nat i)%Z eqn:E; [|reflexivity].
  apply Z.leb_le in E.
  destruct (conc !! _); [|reflexivity].
  destruct (incoming !! i); [|reflexivity].
  apply list_lookup_insert_ne. lia.
Qed.

(** The blending loop writes inside the window that starts at
    [overlapStart] and is as long as the shorter of the ramp and the
    incoming chunk, and nowhere else. *)
Lemma blendOverlap_elsewhere cs incoming overlapStart conc (j : nat) :
  (Z.of_nat j < overlapStart
   \/ overlapStart + Z.min cs (Z.of_nat (length incoming)) <= Z.of_nat j)%Z ->
  blendOverlap cs incoming overlapStart conc !! j = conc !! j.
Proof.
  intros Hout. unfold blendOverlap.
  set (n := Z.to_nat (Z.min cs (Z.of_nat (length incoming)))).
  assert (Hall : Forall (fun i => Z.of_nat j <> (overlapStart + Z.of_nat i)%Z)
                        (seq 0 n)).
  { apply List.Forall_forall. intros i Hi. apply in_seq in Hi. subst n. lia. }
  revert conc. induction Hall as [|i l Hi _ IH]; intros conc; [reflexivity|].
  cbn [fold_left]. rewrite IH. now apply blendStep_elsewhere.
Qed.

Lemma concatLoop_lengths m rest :
  crossfade m = true ->
  (0 <= crossfadeSamples m)%Z ->
  Forall (fun c => (crossfadeSamples m <= Z.of_nat (length (pcm c)))%Z) rest ->
  forall conc offset,
    (0 <= offset)%Z ->
    (0 < crossfadeSamples m -> 0 < offset)%Z ->
    (offset + Z.of_nat (totalSamples rest) <= Z.of_nat (length conc))%Z ->
    exists conc',
      concatLoop m rest (conc, offset)
      = Ok (conc',
            (offset + Z.of_nat (totalSamples rest)
             - Z.of_nat (length rest) * crossfadeSamples m)%Z)
      /\ length conc' = length conc
      /\ (offset <= offset + Z.of_nat (totalSamples rest)
                    - Z.of_nat (length rest) * crossfadeSamples m)%Z.
Proof.
  intros Hcf Hcs Hall.
  induction Hall as [|c rest Hc _ IH]; intros conc offset H0 Hpos Hfit.
  - exists conc. cbn. split; [f_equal; f_equal; lia | split; [reflexivity | lia]].
  - rewrite totalSamples_cons in *. cbn [concatLoop concatStep]. rewrite Hcf.
    cbn [andb].
    destruct (0 <? offset)%Z eqn:Eoff; cbn [andb];
      [destruct (0 <? crossfadeSamples m)%Z eqn:Ecs|].
    + (* blend and append the remainder *)
      apply Z.ltb_lt in Ecs.
      destruct (setAt_fits
                  (blendOverlap (crossfadeSamples m) (pcm c)
                     (offset - crossfadeSamples m) conc)
                  (skipn (Z.to_nat (crossfadeSamples m)) (pcm c)) offset)
        as (c1 & -> & Hlen1); [exact H0 | |].
      { rewrite blendOverlap_length, length_drop. lia. }
      rewrite blendOverlap_length in Hlen1.
      destruct (IH c1 (offset + (Z.of_nat (length (pcm c)) - crossfadeSamples m))%Z)
        as (c2 & -> & Hlen2 & Hmono); [lia | lia | lia |].
      exists c2. split; [f_equal; f_equal; cbn [length]; lia|].
      split; [congruence | cbn [length]; lia].
    + (* no ramp *)
      apply Z.ltb_ge in Ecs.
      destruct (setAt_fits conc (pcm c) offset) as (c1 & -> & Hlen1); [lia | lia |].
      destruct (IH c1 (offset + Z.of_nat (length (pcm c)))%Z)
        as (c2 & -> & Hlen2 & Hmono); [lia | lia | lia |].
      exists c2. split; [f_equal; f_equal; cbn [length]; lia|].
      split; [congruence | cbn [length]; lia].
    + (* nothing written yet *)
      apply Z.ltb_ge in Eoff.
      destruct (setAt_fits conc (pcm c) offset) as (c1 & -> & Hlen1); [lia | lia |].
      destruct (IH c1 (offset + Z.of_nat (length (pcm c)))%Z)
        as (c2 & -> & Hlen2 & Hmono); [lia | lia | lia |].
      exists c2. split; [f_equal; f_equal; cbn [length]; lia|].
      split; [congruence | cbn [length]; lia].
Qed.

(** C4, as the code has it. With cross-fade enabled, at least one chunk,
    a cross-fade length that is not negative and no chunk shorter than it,
    the concatenated buffer has as many samples as the chunks together
    less one cross-fade length per seam. The blending loop changes no
    sample outside the window that starts one cross-fade length before the
    write position and is as long as the shorter of the ramp and the
    incoming chunk. *)
Theorem concatenated_length (m : AudioBufferManager) :
  crossfade m = true ->
  chunks m <> [] ->
  (0 <= crossfadeSamples m)%Z ->
  Forall (fun c => (crossfadeSamples m <= Z.of_nat (length (pcm c)))%Z)
         (chunks m) ->
  (exists b,
      getConcatenatedBlob m = Ok b
      /\ Z.of_nat (length (blobSamples b))
         = (Z.of_nat (totalSamples (chunks m))
            - (Z.of_nat (length (chunks m)) - 1) * crossfadeSamples m)%Z)
  /\ (forall incoming overlapStart conc (j : nat),
         (Z.of_nat j < overlapStart
          \/ overlapStart
             + Z.min (crossfadeSamples m) (Z.of_nat (length incoming))
             <= Z.of_nat j)%Z ->
         blendOverlap (crossfadeSamples m) incoming overlapStart conc !! j
         = conc !! j).
Proof.
  intros Hcf Hne Hcs Hall.
  split; [| intros; now apply blendOverlap_elsewhere].
  unfold getConcatenatedBlob, concatenatedSamples.
  destruct (chunks m) as [|c0 rest] eqn:Echunks; [contradiction|].
  apply Forall_cons in Hall. destruct Hall as [Hc0 Hrest].
  set (T := totalSamples (c0 :: rest)).
  assert (HT : T = (length (pcm c0) + totalSamples rest)%nat)
    by apply totalSamples_cons.
  cbn [concatLoop concatStep]. rewrite Hcf. cbn [andb Z.ltb Z.compare].
  destruct (setAt_fits (repeat 0 T) (pcm c0) 0) as (c1 & -> & Hlen1);
    [lia | rewrite repeat_length; lia |].
  rewrite repeat_length in Hlen1.
  destruct (concatLoop_lengths m rest Hcf Hcs Hrest c1
              (0 + Z.of_nat (length (pcm c0)))%Z)
    as (c2 & -> & Hlen2 & Hmono); [lia | lia | lia |].
  eexists. split; [reflexivity|].
  cbn [blobSamples wavBlob]. unfold sliceTo.
  set (e := (0 + Z.of_nat (length (pcm c0)) + Z.of_nat (totalSamples rest)
             - Z.of_nat (length rest) * crossfadeSamples m)%Z) in *.
  assert (He : (0 <= e <= Z.of_nat T)%Z) by (subst e; nia).
  destruct (e <? 0)%Z eqn:E; [apply Z.ltb_lt in E; lia|].
  rewrite length_take. cbn [length]. subst e. lia.
Qed.

Lemma concatenated_length_witness :
  let m := fst (addChunks
                  (constructor (Options.mk (Some 100) None None None None))
                  [([1; 1; 1], [], someMetrics); ([1; 1; 1], [], someMetrics)]) in
  crossfadeSamples m = 2%Z
  /\ exists b,
       getConcatenatedBlob m = Ok b
       /\ Z.of_nat (length (blobSamples b)) = (6 - (2 - 1) * 2)%Z.
Proof.
  cbv zeta. split; [vm_compute; reflexivity|].
  apply (concatenated_length
           (fst (addChunks
                   (constructor (Options.mk (Some 100) None None None None))
                   [([1; 1; 1], [], someMetrics); ([1; 1; 1], [], someMetrics)]))).
  - vm_compute. reflexivity.
  - vm_compute. intros H. discriminate H.
  - vm_compute. intros H. discriminate H.
  - repeat constructor; vm_compute; intros H; discriminate H.
Defined.

(** C4, as the specification has it, fails when a chunk is shorter than
    the cross-fade: at 150 Hz the cross-fade is 3 samples long; two chunks
    of one sample each give a buffer of one sample, where the formula
    gives 2 - 3. *)
Lemma concatenated_length_short_chunks :
  let m := fst (addChunks
                  (constructor (Options.mk (Some 150) (Some true) None None None))
                  [([1], [], someMetrics); ([1], [], someMetrics)]) in
  crossfade m = true
  /\ crossfadeSamples m = 3%Z
  /\ List.map (fun c => length (pcm c)) (chunks m) = [1; 1]%nat
  /\ exists b,
       getConcatenatedBlob m = Ok b
       /\ length (blobSamples b) = 1%nat
       /\ Z.of_nat (length (blobSamples b))
          <> (Z.of_nat (totalSamples (chunks m))
              - (Z.of_nat (length (chunks m)) - 1) * crossfadeSamples m)%Z.
Proof.
  cbv zeta. split; [reflexivity|]. split; [vm_compute; reflexivity|].
  split; [vm_compute; reflexivity|].
  eexists. split; [vm_compute; reflexivity|].
  split; [reflexivity|]. vm_compute. intros H. discriminate H.
Qed.

(** With a third chunk the write position of the same run is negative
    when the third chunk is copied, and the copy throws. *)
Example concatenated_short_chunks_throw :
  getConcatenatedBlob
    (fst (addChunks
            (constructor (Options.mk (Some 150) (Some true) None None None))
            [([1], [], someMetrics); ([1], [], someMetrics);
             ([1], [], someMetrics)]))
  = Throw (RangeError offsetOutOfBounds).
Proof. vm_compute. reflexivity. Qed.

End BufferManagerSpec.

(* ===================================================================== *)
(** ** Properties of the streaming session *)
(* ===================================================================== *)

Module StreamingSpec.
Import BufferManager Streaming.

(** [cancelStream] acts on a streaming session only. *)
Lemma cancelSession_state s :
  state (cancelSession s)
  = match state s with streaming => cancelled | st => st end.
Proof. unfold cancelSession, isState. destruct s as [i [] ms e]; reflexivity. Qed.

(** A run that returns leaves the session completed, and a run that
    throws leaves it in error: no run leaves it cancelled. *)
Lemma predictStream_final_state env config g r :
  predictStream env config g = Some r ->
  match outcome r with
  | Ok _ => finalState r = Some completed
  | Throw _ => finalState r = Some error
  end.
Proof.
  unfold predictStream. intros H.
  destruct (loadModel env) as [rate|e].
  - destruct (Chunking.createTextChunks _ _ _) as [textChunks|]; [|discriminate H].
    destruct (streamLoop _ _ _ _) as [ls [e|]];
      injection H as <-; reflexivity.
  - injection H as <-. reflexivity.
Qed.

Lemma isState_spec st s : isState st s = true <-> state s = st.
Proof. unfold isState. destruct (state s), st; split; congruence. Qed.

Lemma streaming_not_cancelled s :
  state s = streaming -> isState cancelled s = false.
Proof. unfold isState. intros ->. reflexivity. Qed.

(** The test at the head of the loop: a cancelled session ends it. *)
Lemma streamLoop_cancelled env textChunks i ls :
  state (session ls) = cancelled ->
  streamLoop env textChunks i ls = (ls, None).
Proof.
  intros H. destruct textChunks; [reflexivity|].
  cbn [streamLoop]. now rewrite (proj2 (isState_spec cancelled (session ls)) H).
Qed.

(** The loop stops before the chunk that follows the one during whose
    delivery the cancellation came: with collaborators that do not fail
    and a single cancellation, in the callback of the chunk of index [k],
    the loop delivers the chunks up to index [k] and leaves the session
    cancelled. *)
Lemma streamLoop_cancelled_in_callback k textChunks :
  forall i ls,
    state (session ls) = streaming ->
    (i <= k < i + length textChunks)%nat ->
    let out := streamLoop (cancelInCallback k) textChunks i ls in
    snd out = None
    /\ length (delivered (fst out)) = (length (delivered ls) + (k - i + 1))%nat
    /\ state (session (fst out)) = cancelled.
Proof.
  induction textChunks as [|tc rest IH]; intros i ls Hst Hk; cbn zeta.
  - cbn in Hk. lia.
  - cbn [streamLoop]. rewrite (streaming_not_cancelled _ Hst).
    unfold interfere. cbn [cancelInCallback cancelRequested synthesize
                            onChunkThrows measured phase_eqb].
    destruct (addChunk (bufferManager ls) _ _ _) as [bm audioChunk].
    destruct (Nat.eqb i k) eqn:Eik.
    + apply Nat.eqb_eq in Eik. subst i.
      rewrite streamLoop_cancelled
        by (cbn [session]; now rewrite cancelSession_state, Hst).
      cbn [fst snd delivered session].
      rewrite cancelSession_state, Hst, length_app. cbn [length].
      repeat split; lia.
    + apply Nat.eqb_neq in Eik. cbn [loopMetrics delivered].
      match goal with
      | |- context [streamLoop _ rest (S i) ?l] => specialize (IH (S i) l)
      end.
      cbn zeta in IH. cbn [session delivered loopMetrics] in IH.
      destruct IH as (H1 & H2 & H3); [exact Hst | cbn [length] in Hk; lia |].
      repeat split; [exact H1 | | exact H3].
      rewrite H2, length_app. cbn [length]. lia.
Qed.

(** The same for a whole run, on any text: when the cancellation comes in
    the callback of the chunk of index [k], the run delivers [k + 1]
    chunks, returns, and leaves the session completed. *)
Lemma predictStream_cancelled_run_completes k config textChunks :
  Chunking.createTextChunks (configText config)
    (default 1%nat (chunkSize config)) (default 1%nat (lookahead config))
  = Some textChunks ->
  (k < length textChunks)%nat ->
  exists r,
    predictStream (cancelInCallback k) config freshGlobals = Some r
    /\ length (deliveredChunks r) = S k
    /\ finalState r = Some completed.
Proof.
  intros Hchunks Hk. unfold predictStream.
  cbn [cancelInCallback loadModel]. rewrite Hchunks.
  match goal with
  | |- context [streamLoop ?e textChunks 0 ?l] =>
      pose proof (streamLoop_cancelled_in_callback k textChunks 0 l) as H;
      destruct (streamLoop e textChunks 0 l) as [ls' oe]
  end.
  cbn zeta in H. cbn [fst snd session delivered state setState] in H.
  destruct H as (-> & Hlen & _); [reflexivity | lia |].
  eexists. split; [reflexivity|].
  cbn [deliveredChunks]. split; [cbn [length] in Hlen; lia | reflexivity].
Qed.

(** C1. Three sentences, collaborators that do not fail, and a callback
    that calls [cancelStream] when it receives the first chunk: the loop
    stops with the session cancelled and one chunk delivered, and the
    statement after the loop then sets the state to completed. The run
    returns metrics for one chunk, and the session is left completed, not
    cancelled. *)
Theorem cancel_after_first_chunk_ends_completed :
  let run := predictStream (cancelInCallback 0) threeSentences freshGlobals in
  option_map (fun r => length (deliveredChunks r)) run = Some 1%nat
  /\ option_map finalState run = Some (Some completed)
  /\ option_map finalState run <> Some (Some cancelled)
  /\ option_map (fun r => match outcome r with
                          | Ok sm => Some (totalChunks sm)
                          | Throw _ => None
                          end) run = Some (Some 1%nat)
  /\ option_map (length ∘ Chunking.splitIntoSentences ∘ configText)
       (Some threeSentences) = Some 3%nat.
Proof.
  cbv zeta. repeat split; try (vm_compute; reflexivity).
  vm_compute. intros H. discriminate H.
Qed.

End StreamingSpec.

(* ===================================================================== *)
(** ** Further properties of the chunker *)
(* ===================================================================== *)

Module ChunkingProps.
Import JsString Chunking TextNotions.

(** *** White space *)

Lemma dropSpaces_headOk s : headOk (dropSpaces s).
Proof.
  induction s as [|c s IH]; cbn; [exact I|].
  destruct (is_space c) eqn:E; [exact IH | exact E].
Qed.

Lemma dropSpaces_id s : headOk s -> dropSpaces s = s.
Proof. destruct s as [|c s]; cbn; [reflexivity|]. now intros ->. Qed.

Lemma dropSpaces_suffix s : exists sp, s = sp ++ dropSpaces s /\ forallb is_space sp = true.
Proof.
  induction s as [|c s (sp & E & Hsp)]; cbn.
  - exists []. split; reflexivity.
  - destruct (is_space c) eqn:Ec.
    + exists (c :: sp). cbn. rewrite Ec, Hsp. split; [now f_equal | reflexivity].
    + exists []. split; reflexivity.
Qed.

Lemma inkOf_spaces sp : forallb is_space sp = true -> inkOf sp = [].
Proof.
  induction sp as [|c sp IH]; cbn; [reflexivity|].
  intros H. apply andb_true_iff in H. destruct H as [Hc Hsp].
  unfold nonSpace at 1. rewrite Hc. cbn. now apply IH.
Qed.

Lemma inkOf_app a b : inkOf (a ++ b) = inkOf a ++ inkOf b.
Proof. apply List.filter_app. Qed.

Lemma inkOf_rev a : inkOf (rev a) = rev (inkOf a).
Proof.
  induction a as [|c a IH]; cbn; [reflexivity|].
  rewrite inkOf_app, IH. cbn. destruct (nonSpace c); cbn; [reflexivity|].
  now rewrite app_nil_r.
Qed.

Lemma inkOf_dropSpaces s : inkOf (dropSpaces s) = inkOf s.
Proof.
  destruct (dropSpaces_suffix s) as (sp & E & Hsp).
  rewrite E at 2. now rewrite inkOf_app, (inkOf_spaces sp Hsp).
Qed.

Lemma inkOf_trim s : inkOf (trim s) = inkOf s.
Proof.
  unfold trim.
  now rewrite inkOf_rev, inkOf_dropSpaces, inkOf_rev, rev_involutive, inkOf_dropSpaces.
Qed.

Lemma inkOf_collapseFrom b s : inkOf (collapseFrom b s) = inkOf s.
Proof.
  revert b. induction s as [|c s IH]; intros b; cbn; [reflexivity|].
  unfold nonSpace at 2. destruct (is_space c) eqn:E; cbn.
  - destruct b; cbn; rewrite ?IH; reflexivity.
  - unfold nonSpace at 1. rewrite E. cbn. now rewrite IH.
Qed.

Lemma headOk_app_l a b : headOk (a ++ b) -> headOk a.
Proof. destruct a; cbn; [intros _; exact I | auto]. Qed.

Lemma dropSpaces_lastOk s : lastOk s -> lastOk (dropSpaces s).
Proof.
  unfold lastOk. destruct (dropSpaces_suffix s) as (sp & E & _).
  rewrite E at 1. rewrite rev_app_distr. apply headOk_app_l.
Qed.

Lemma trim_fixed s : headOk s -> lastOk s -> trim s = s.
Proof.
  intros Hh Hl. unfold trim.
  rewrite (dropSpaces_id s Hh), (dropSpaces_id (rev s) Hl). apply rev_involutive.
Qed.

Lemma trim_headOk s : headOk (trim s).
Proof.
  unfold trim. apply dropSpaces_lastOk. unfold lastOk.
  rewrite rev_involutive. apply dropSpaces_headOk.
Qed.

Lemma trim_lastOk s : lastOk (trim s).
Proof.
  unfold lastOk, trim. rewrite rev_involutive. apply dropSpaces_headOk.
Qed.

Lemma trim_trim s : trim (trim s) = trim s.
Proof. apply trim_fixed; [apply trim_headOk | apply trim_lastOk]. Qed.

Lemma collapseFrom_snoc b s c :
  is_space c = false -> collapseFrom b (s ++ [c]) = collapseFrom b s ++ [c].
Proof.
  intros Hc. revert b. induction s as [|d s IH]; intros b; cbn.
  - now rewrite Hc.
  - destruct (is_space d); [destruct b|]; cbn; now rewrite IH.
Qed.

Lemma lastOk_cases s :
  lastOk s <-> s = [] \/ exists init c, s = init ++ [c] /\ is_space c = false.
Proof.
  unfold lastOk. destruct s as [|c0 s0] using rev_ind.
  - split; [now left | intros _; exact I].
  - rewrite rev_app_distr. cbn. split.
    + intros H. right. now exists s0, c0.
    + intros [H|(init & c & E & Hc)].
      * now destruct s0.
      * apply app_inj_tail in E. destruct E as [_ ->]. exact Hc.
Qed.

Lemma collapse_headOk s : headOk s -> headOk (collapseSpaces s).
Proof.
  destruct s as [|c s]; cbn; [auto|]. intros Hc. now rewrite Hc.
Qed.

Lemma collapse_lastOk s : lastOk s -> lastOk (collapseSpaces s).
Proof.
  intros H. apply lastOk_cases in H. apply lastOk_cases.
  destruct H as [->|(init & c & -> & Hc)]; [now left|].
  right. exists (collapseSpaces init), c. split; [| exact Hc].
  now apply collapseFrom_snoc.
Qed.

Lemma collapseFrom_idem b s :
  collapseFrom b (collapseFrom b s) = collapseFrom b s.
Proof.
  revert b. induction s as [|c s IH]; intros b; cbn; [reflexivity|].
  destruct (is_space c) eqn:E.
  - destruct b; [apply IH|]. cbn. now rewrite IH.
  - cbn. rewrite E. now rewrite IH.
Qed.

Lemma normalize_fixed t : trim (normalize t) = normalize t.
Proof.
  apply trim_fixed.
  - apply collapse_headOk, trim_headOk.
  - apply collapse_lastOk, trim_lastOk.
Qed.

Lemma normalize_idem t : normalize (normalize t) = normalize t.
Proof.
  unfold normalize at 1. rewrite normalize_fixed. apply collapseFrom_idem.
Qed.

(** *** Boundaries *)

Lemma charAt_skipn (s : JsString.t) k c :
  charAt s k = Some c -> skipn k s = c :: skipn (S k) s.
Proof.
  unfold charAt. revert k. induction s as [|d s IH]; intros [|k] H;
    try discriminate H; cbn in *.
  - now injection H as ->.
  - now apply IH.
Qed.

Lemma charAt_lt (s : JsString.t) k c : charAt s k = Some c -> k < length s.
Proof. unfold charAt. intros H. apply nth_error_Some. congruence. Qed.

Lemma charAt_ge (s : JsString.t) k : length s <= k -> charAt s k = None.
Proof. unfold charAt. apply nth_error_None. Qed.

Lemma charTest_lt p (s : JsString.t) k : charTest p s k = true -> k < length s.
Proof.
  unfold charTest. destruct (charAt s k) eqn:E; [|discriminate].
  intros _. now apply charAt_lt in E.
Qed.

Lemma boundary_is_ender text pos :
  isSentenceBoundary text pos = true -> charTest is_ender text pos = true.
Proof.
  unfold isSentenceBoundary. destruct (charTest is_ender text pos); [reflexivity|].
  cbn. discriminate.
Qed.

Lemma filter_seq_sorted (f : nat -> bool) a n :
  StronglySorted lt (List.filter f (seq a n)).
Proof.
  revert a. induction n as [|n IH]; intros a; cbn; [constructor|].
  destruct (f a); [| apply IH].
  constructor; [apply IH|].
  apply List.Forall_forall. intros x Hx.
  apply List.filter_In in Hx. destruct Hx as [Hx _]. apply in_seq in Hx. lia.
Qed.

Lemma boundaries_facts (text : JsString.t) :
  StronglySorted lt (detectSentenceBoundaries text)
  /\ (forall i, In i (detectSentenceBoundaries text)
                <-> isSentenceBoundary text i = true)
  /\ Forall (fun i => i < length text /\ charTest is_ender text i = true)
            (detectSentenceBoundaries text).
Proof.
  unfold detectSentenceBoundaries. split; [apply filter_seq_sorted|]. split.
  - intros i. rewrite List.filter_In, in_seq, andb_true_iff. split.
    + now intros [_ [_ H]].
    + intros H. pose proof (boundary_is_ender _ _ H) as He.
      pose proof (charTest_lt _ _ _ He). repeat split; auto; lia.
  - apply List.Forall_forall. intros i Hi.
    apply List.filter_In in Hi. destruct Hi as [Hi H].
    apply in_seq in Hi. apply andb_true_iff in H. split; [lia | tauto].
Qed.

Lemma startsWith_afterPunc p (text : JsString.t) pos c :
  charAt text (pos + 1) = Some c ->
  startsWith p (slice text (pos + 1) (pos + 3)) = p c.
Proof.
  intros H. unfold slice. rewrite (charAt_skipn _ _ _ H).
  replace (pos + 3 - (pos + 1)) with 2 by lia. reflexivity.
Qed.

(** The detector returns, in increasing order, exactly the positions that
    [isSentenceBoundary] accepts; each lies inside the text and holds a
    period, an exclamation mark or a question mark. *)
Theorem detectSentenceBoundaries_characterised (text : JsString.t) :
  StronglySorted lt (detectSentenceBoundaries text)
  /\ (forall i, In i (detectSentenceBoundaries text)
                <-> isSentenceBoundary text i = true)
  /\ Forall (fun i => i < length text /\ charTest is_ender text i = true)
            (detectSentenceBoundaries text).
Proof. exact (boundaries_facts text). Qed.

(** A period, exclamation mark or question mark directly followed by a
    lower-case letter is never a sentence end; nor is a period directly
    followed by a digit, nor the first of three periods in a row. *)
Theorem isSentenceBoundary_never (text : JsString.t) (pos : nat) (c : N) :
  charAt text (pos + 1) = Some c ->
  is_lower c = true
  \/ (charIs text pos DOT = true /\ is_digit c = true)
  \/ (charIs text pos DOT = true /\ c = DOT /\ charIs text (pos + 2) DOT = true) ->
  isSentenceBoundary text pos = false.
Proof.
  intros Hc Hcases. unfold isSentenceBoundary.
  destruct (negb (charTest is_ender text pos)); [reflexivity|].
  rewrite !(startsWith_afterPunc _ _ _ _ Hc).
  unfold charIs at 2. rewrite Hc.
  destruct Hcases as [Hl|[[Hd Hg]|(Hd & -> & H2)]].
  - rewrite Hl. now destruct (_ && _).
  - rewrite Hd, Hg. cbn. destruct (_ && _); [reflexivity|].
    now destruct (is_lower c).
  - rewrite Hd, H2. reflexivity.
Qed.

Lemma isSentenceBoundary_never_witness :
  isSentenceBoundary (lit "Pi is 3.14 approximately.") 7 = false.
Proof.
  apply (isSentenceBoundary_never (lit "Pi is 3.14 approximately.") 7 49%N).
  - vm_compute. reflexivity.
  - right. left. split; vm_compute; reflexivity.
Defined.

(** At the very end of the text an exclamation mark or a question mark is
    always a sentence end, and a period is one unless the letters before it
    spell an abbreviation. *)
Theorem isSentenceBoundary_at_end (text : JsString.t) (pos : nat) :
  S pos = length text ->
  charTest is_ender text pos = true ->
  isSentenceBoundary text pos
  = negb (charIs text pos DOT
          && isAbbreviation (toLowerCase (getWordBefore text pos))).
Proof.
  intros Hend Hender.
  assert (Hc : forall k c, pos < k -> charIs text k c = false).
  { intros k c Hk. unfold charIs. now rewrite charAt_ge by lia. }
  assert (Hs : forall a b, pos < a -> slice text a b = []).
  { intros a b Ha. unfold slice. rewrite skipn_all2 by lia. apply firstn_nil. }
  unfold isSentenceBoundary. cbv zeta. rewrite Hender.
  rewrite ?(Hc (pos + 1)), ?(Hc (pos + 2)), ?(Hs (pos + 1)), ?(Hs (pos + 2)) by lia.
  unfold sliceFrom. rewrite (skipn_all2 text (n := pos + 1)) by lia.
  cbn [negb startsWith spacesThen allSpaces forallb].
  rewrite !andb_false_r, !andb_true_r. cbn [orb].
  now destruct (charIs text pos DOT && isAbbreviation _).
Qed.

Lemma isSentenceBoundary_at_end_witness :
  isSentenceBoundary (lit "Bring pens, paper etc.") 21 = false
  /\ isSentenceBoundary (lit "Bring pens, paper etc!") 21 = true.
Proof.
  split.
  - rewrite (isSentenceBoundary_at_end (lit "Bring pens, paper etc.") 21);
      vm_compute; reflexivity.
  - rewrite (isSentenceBoundary_at_end (lit "Bring pens, paper etc!") 21);
      vm_compute; reflexivity.
Defined.

(** *** Splitting *)

Lemma skipQuotes_ge fuel (n : JsString.t) e : e <= skipQuotes fuel n e.
Proof.
  revert e. induction fuel as [|f IH]; intros e; cbn; [lia|].
  destruct (_ && _); [| lia]. specialize (IH (S e)). lia.
Qed.

Lemma skipQuotes_quotes fuel (n : JsString.t) e j :
  e <= j < skipQuotes fuel n e -> charTest is_quote n j = true.
Proof.
  revert e. induction fuel as [|f IH]; intros e; cbn; [lia|].
  destruct (_ && _) eqn:E; [| lia].
  apply andb_true_iff in E. destruct E as [_ E]. intros Hj.
  destruct (Nat.eq_dec j e) as [->|Hne]; [exact E|].
  apply (IH (S e)). lia.
Qed.

Lemma skipQuotes_stop fuel (n : JsString.t) e :
  length n - e <= fuel ->
  charTest is_quote n (skipQuotes fuel n e) = false.
Proof.
  revert e. induction fuel as [|f IH]; intros e Hf; cbn.
  - unfold charTest. now rewrite charAt_ge by lia.
  - destruct (_ && _) eqn:E.
    + apply IH. lia.
    + apply andb_false_iff in E. destruct E as [E|E]; [| exact E].
      apply Nat.ltb_ge in E. unfold charTest. now rewrite charAt_ge by lia.
Qed.

(** The scan over closing quotes ends no earlier when it starts later. *)
Lemma skipQuotes_mono (n : JsString.t) a b :
  a <= b ->
  skipQuotes (length n) n a <= skipQuotes (length n) n b.
Proof.
  intros Hab.
  pose proof (skipQuotes_ge (length n) n b) as Hb.
  destruct (le_lt_dec (skipQuotes (length n) n a) (skipQuotes (length n) n b))
    as [H|H]; [exact H|].
  pose proof (skipQuotes_quotes (length n) n a (skipQuotes (length n) n b)) as Hq.
  rewrite skipQuotes_stop in Hq by lia.
  assert (false = true) by (apply Hq; lia). discriminate.
Qed.

Lemma truthy_false (s : JsString.t) : truthy s = false -> s = [].
Proof. destruct s; [reflexivity | discriminate]. Qed.

Lemma truthy_true (s : JsString.t) : truthy s = true -> s <> [].
Proof. destruct s; [discriminate | discriminate]. Qed.

Lemma slice_slice (n : JsString.t) a b c :
  a <= b -> b <= c -> slice n a b ++ slice n b c = slice n a c.
Proof.
  intros Hab Hbc. unfold slice.
  replace (skipn b n) with (skipn (b - a) (skipn a n))
    by (rewrite skipn_skipn; f_equal; lia).
  replace (c - a) with ((b - a) + (c - b)) by lia.
  apply take_take_drop.
Qed.

(** What one turn of the loop adds to the sentences is, white space apart,
    the stretch of text it steps over. *)
Lemma splitStep_ink n start sentences b :
  let '(e, sentences') := splitStep n (start, sentences) b in
  e = skipQuotes (length n) n (b + 1)
  /\ inkOf (concat sentences')
     = inkOf (concat sentences) ++ inkOf (slice n start e)
  /\ (exists more, sentences' = sentences ++ more
                   /\ Forall (fun s => trim s = s /\ s <> []) more).
Proof.
  cbn. split; [reflexivity|].
  set (sentence := trim (slice n start (skipQuotes (length n) n (b + 1)))).
  assert (Hink : inkOf sentence
                 = inkOf (slice n start (skipQuotes (length n) n (b + 1))))
    by apply inkOf_trim.
  destruct (truthy sentence) eqn:E.
  - split.
    + rewrite concat_app, inkOf_app. cbn [concat]. now rewrite app_nil_r, Hink.
    + exists [sentence]. split; [reflexivity|].
      repeat constructor; [apply trim_trim | now apply truthy_true].
  - split.
    + apply truthy_false in E. rewrite <- Hink, E. cbn. now rewrite app_nil_r.
    + exists []. split; [now rewrite app_nil_r | constructor].
Qed.

Lemma split_fold n bs :
  StronglySorted lt bs ->
  forall start sentences,
    Forall (fun b => start <= skipQuotes (length n) n (b + 1)) bs ->
    let '(e, sentences') := fold_left (splitStep n) bs (start, sentences) in
    start <= e
    /\ inkOf (concat sentences')
       = inkOf (concat sentences) ++ inkOf (slice n start e)
    /\ (exists more, sentences' = sentences ++ more
                     /\ Forall (fun s => trim s = s /\ s <> []) more).
Proof.
  induction 1 as [|b bs Hsorted IH Hb]; intros start sentences Hstart.
  - cbn. split; [lia|]. split.
    + unfold slice. rewrite Nat.sub_diag. cbn. now rewrite app_nil_r.
    + exists []. split; [now rewrite app_nil_r | constructor].
  - cbn [fold_left].
    pose proof (splitStep_ink n start sentences b) as Hstep.
    destruct (splitStep n (start, sentences) b) as [e s1].
    destruct Hstep as (He & Hink1 & more1 & Hmore1 & Hall1).
    apply Forall_cons in Hstart. destruct Hstart as [Hse _].
    rewrite <- He in Hse.
    specialize (IH e s1).
    destruct (fold_left (splitStep n) bs (e, s1)) as [e' s'].
    destruct IH as (Hle & Hink2 & more2 & Hmore2 & Hall2).
    { apply List.Forall_forall. intros b' Hb'. subst e.
      apply skipQuotes_mono.
      rewrite List.Forall_forall in Hb. specialize (Hb b' Hb'). lia. }
    split; [lia|]. split.
    + rewrite Hink2, Hink1, <- app_assoc, <- inkOf_app.
      now rewrite slice_slice by lia.
    + exists (more1 ++ more2). subst s' s1. split; [now rewrite app_assoc|].
      apply Forall_app. now split.
Qed.

Lemma ender_not_space c : is_ender c = true -> is_space c = false.
Proof.
  unfold is_ender. rewrite !orb_true_iff, !N.eqb_eq.
  intros [[->| ->]| ->]; reflexivity.
Qed.

Lemma inkOf_prefix_nonempty (n : JsString.t) b e :
  charTest is_ender n b = true -> b < e -> inkOf (slice n 0 e) <> [].
Proof.
  unfold charTest. destruct (charAt n b) as [c|] eqn:Hc; [|discriminate].
  intros He Hbe. apply ender_not_space in He.
  unfold slice. rewrite Nat.sub_0_r, drop_0.
  replace e with (b + (e - b)) by lia.
  rewrite <- take_take_drop, inkOf_app.
  change (drop b n) with (skipn b n). rewrite (charAt_skipn _ _ _ Hc).
  destruct (e - b) as [|k] eqn:Ek; [lia|]. cbn [firstn].
  unfold inkOf at 2. cbn [List.filter]. unfold nonSpace at 1. rewrite He.
  cbn [negb]. intros H. apply app_eq_nil in H. destruct H as [_ H]. discriminate H.
Qed.

Lemma inkOf_nil_trim (s : JsString.t) : inkOf s = [] -> trim s = [].
Proof.
  intros H. unfold trim.
  assert (Hd : forall z : JsString.t, inkOf z = [] -> dropSpaces z = []).
  { induction z as [|c z IH]; cbn; [reflexivity|].
    unfold nonSpace at 1. destruct (is_space c); cbn; [exact IH | discriminate]. }
  rewrite (Hd s H). reflexivity.
Qed.

Lemma sentences_facts (t : JsString.t) :
  splitIntoSentences t <> []
  /\ Forall (fun s => trim s = s) (splitIntoSentences t)
  /\ (inkOf t = [] -> splitIntoSentences t = [[]])
  /\ (inkOf t <> [] -> Forall (fun s => s <> []) (splitIntoSentences t)).
Proof.
  unfold splitIntoSentences.
  set (n := collapseSpaces (trim t)).
  assert (Hn : inkOf n = inkOf t)
    by (unfold n, collapseSpaces; now rewrite inkOf_collapseFrom, inkOf_trim).
  destruct (boundaries_facts n) as (Hsorted & _ & Hall).
  destruct (detectSentenceBoundaries n) as [|b bs] eqn:Ebs.
  - split; [discriminate|]. split; [repeat constructor; apply normalize_fixed|].
    split.
    + intros H. unfold n. rewrite (inkOf_nil_trim t H). reflexivity.
    + intros H. repeat constructor. intros E. apply H. rewrite <- Hn, E. reflexivity.
  - pose proof (split_fold n (b :: bs) Hsorted 0 []) as Hfold.
    destruct (fold_left (splitStep n) (b :: bs) (0, [])) as [e sentences] eqn:Efold.
    destruct Hfold as (_ & Hink & more & Hmore & Hmoreall);
      [apply List.Forall_forall; intros; lia|].
    cbn [app] in Hmore. subst more.
    assert (Hne : sentences <> []).
    { intros ->. cbn in Hink.
      apply Forall_cons in Hall. destruct Hall as [[_ Hb] _].
      cbn [fold_left] in Efold.
      pose proof (splitStep_ink n 0 [] b) as Hstep.
      destruct (splitStep n (0, []) b) as [e1 s1].
      destruct Hstep as (He1 & Hink1 & _).
      pose proof (split_fold n bs) as Hrest.
      apply StronglySorted_inv in Hsorted. destruct Hsorted as [Hs Hb'].
      specialize (Hrest Hs e1 s1). rewrite Efold in Hrest.
      destruct Hrest as (_ & _ & more & Hmore & _).
      { apply List.Forall_forall. intros b' Hin. subst e1.
        apply skipQuotes_mono. rewrite List.Forall_forall in Hb'.
        specialize (Hb' b' Hin). lia. }
      symmetry in Hmore. apply app_eq_nil in Hmore. destruct Hmore as [-> _].
      cbn in Hink1. symmetry in Hink1.
      revert Hink1. apply (inkOf_prefix_nonempty n b); [exact Hb|].
      subst e1. pose proof (skipQuotes_ge (length n) n (b + 1)). lia. }
    assert (Hremaining :
      Forall (fun s => trim s = s /\ s <> [])
        (if truthy (trim (sliceFrom n e))
         then sentences ++ [trim (sliceFrom n e)] else sentences)).
    { destruct (truthy _) eqn:E; [| exact Hmoreall].
      apply Forall_app. split; [exact Hmoreall|].
      repeat constructor; [apply trim_trim | now apply truthy_true]. }
    split; [destruct (truthy _); [now destruct sentences | exact Hne]|].
    split; [eapply Forall_impl; [exact Hremaining|]; now intros s [H _]|].
    split.
    + intros Ht. exfalso. rewrite <- Hn in Ht.
      apply Forall_cons in Hall. destruct Hall as [[Hlt Hb] _].
      unfold charTest in Hb. destruct (charAt n b) as [c|] eqn:Hc; [|discriminate].
      apply ender_not_space in Hb.
      assert (Hin : In c (inkOf n)).
      { apply List.filter_In. split.
        - apply (nth_error_In n b). exact Hc.
        - unfold nonSpace. now rewrite Hb. }
      rewrite Ht in Hin. exact Hin.
    + intros _. eapply Forall_impl; [exact Hremaining|]. now intros s [_ H].
Qed.

(** The splitter never returns an empty list. Every sentence is trimmed,
    and no sentence is empty, except that a text without anything but
    white space gives the empty sentence alone. *)
Theorem splitIntoSentences_shape (t : JsString.t) :
  splitIntoSentences t <> []
  /\ Forall (fun s => trim s = s) (splitIntoSentences t)
  /\ (inkOf t = [] -> splitIntoSentences t = [[]])
  /\ (inkOf t <> [] -> Forall (fun s => s <> []) (splitIntoSentences t)).
Proof. exact (sentences_facts t). Qed.

(** Splitting adds, loses and reorders nothing but white space: the code
    units of the sentences that are not white space are those of the
    text. *)
Theorem splitIntoSentences_keeps_ink (t : JsString.t) :
  inkOf (concat (splitIntoSentences t)) = inkOf t.
Proof.
  unfold splitIntoSentences.
  set (n := collapseSpaces (trim t)).
  assert (Hn : inkOf n = inkOf t)
    by (unfold n, collapseSpaces; now rewrite inkOf_collapseFrom, inkOf_trim).
  destruct (boundaries_facts n) as (Hsorted & _ & _).
  destruct (detectSentenceBoundaries n) as [|b bs] eqn:Ebs.
  - cbn. now rewrite app_nil_r.
  - pose proof (split_fold n (b :: bs) Hsorted 0 []) as Hfold.
    destruct (fold_left (splitStep n) (b :: bs) (0, [])) as [e sentences].
    destruct Hfold as (_ & Hink & _); [apply List.Forall_forall; intros; lia|].
    cbn [concat inkOf List.filter app] in Hink.
    assert (Hall : inkOf (concat sentences) ++ inkOf (trim (sliceFrom n e))
                   = inkOf t).
    { rewrite Hink, inkOf_trim, <- inkOf_app, <- Hn. f_equal.
      unfold slice, sliceFrom. rewrite Nat.sub_0_r, drop_0.
      apply firstn_skipn. }
    destruct (truthy (trim (sliceFrom n e))) eqn:E.
    + rewrite concat_app, inkOf_app. cbn [concat]. now rewrite app_nil_r.
    + apply truthy_false in E. rewrite E in Hall. cbn in Hall.
      now rewrite app_nil_r in Hall.
Qed.

(** The splitter sees the text through its normal form only: splitting the
    trimmed text with its white space collapsed gives the same sentences. *)
Theorem splitIntoSentences_normalised (t : JsString.t) :
  splitIntoSentences (collapseSpaces (trim t)) = splitIntoSentences t.
Proof.
  unfold splitIntoSentences.
  change (collapseSpaces (trim (collapseSpaces (trim t))))
    with (normalize (normalize t)).
  now rewrite normalize_idem.
Qed.

(** *** Chunks *)

Section ChunkLoop.
Variable sentences : list JsString.t.
Variables chunkSize lookahead : nat.
Hypothesis chunkSize_pos : 1 <= chunkSize.

Lemma madeInOrder_snoc chunks :
  madeInOrder sentences chunkSize lookahead chunks ->
  madeInOrder sentences chunkSize lookahead
    (chunks ++ [makeChunk sentences chunkSize lookahead
                  (length chunks * chunkSize) chunks]).
Proof.
  intros Hinv j c Hj.
  destruct (lt_eq_lt_dec j (length chunks)) as [[Hlt|Heq]|Hgt].
  - rewrite lookup_app_l in Hj by exact Hlt.
    rewrite take_app_le by lia. now apply Hinv.
  - subst j. rewrite list_lookup_middle in Hj by reflexivity.
    injection Hj as <-. now rewrite take_app_length.
  - apply lookup_lt_Some in Hj. rewrite length_app in Hj. cbn in Hj. lia.
Qed.

Lemma chunkLoop_terminates fuel :
  forall i chunks,
    length sentences - i <= fuel ->
    exists res, chunkLoop fuel sentences chunkSize lookahead i chunks = Some res.
Proof.
  induction fuel as [|f IH]; intros i chunks Hfuel; cbn [chunkLoop];
    destruct (i <? length sentences) eqn:E;
    try (apply Nat.ltb_lt in E); eauto; [lia|].
  apply IH. lia.
Qed.

Lemma chunkLoop_result fuel :
  forall chunks res,
    chunkLoop fuel sentences chunkSize lookahead
      (length chunks * chunkSize) chunks = Some res ->
    madeInOrder sentences chunkSize lookahead chunks ->
    madeInOrder sentences chunkSize lookahead res
    /\ length chunks <= length res
    /\ length sentences <= length res * chunkSize
    /\ (length res = length chunks
        \/ (length res - 1) * chunkSize < length sentences).
Proof.
  induction fuel as [|f IH]; intros chunks res Hrun Hinv; cbn [chunkLoop] in Hrun;
    destruct (length chunks * chunkSize <? length sentences) eqn:E;
    try discriminate Hrun.
  - injection Hrun as <-. apply Nat.ltb_ge in E. auto with lia.
  - apply Nat.ltb_lt in E.
    set (c := makeChunk sentences chunkSize lookahead
                (length chunks * chunkSize) chunks) in *.
    specialize (IH (chunks ++ [c]) res).
    rewrite length_app in IH. cbn [length] in IH.
    replace ((length chunks + 1) * chunkSize)
      with (length chunks * chunkSize + chunkSize) in IH by lia.
    destruct (IH Hrun (madeInOrder_snoc chunks Hinv)) as (H1 & H2 & H3 & H4).
    split; [exact H1|]. split; [lia|]. split; [exact H3|].
    right. destruct H4 as [H4|H4]; [| exact H4].
    rewrite H4. replace (length chunks + 1 - 1) with (length chunks) by lia.
    exact E.
  - injection Hrun as <-. apply Nat.ltb_ge in E. auto with lia.
Qed.

Lemma join_app (a b : list JsString.t) :
  a <> [] -> b <> [] -> join (a ++ b) = join a ++ SPACE :: join b.
Proof.
  intros Ha Hb. induction a as [|x [|y a'] IH]; [contradiction| |].
  - destruct b; [contradiction | reflexivity].
  - change (join ((x :: y :: a') ++ b))
      with (x ++ SPACE :: join ((y :: a') ++ b)).
    rewrite IH by discriminate.
    change (join (x :: y :: a')) with (x ++ SPACE :: join (y :: a')).
    now rewrite <- app_assoc.
Qed.

(** The texts of chunks made in order, joined by single spaces, are the
    sentences they cover joined by single spaces. *)
Lemma madeInOrder_texts chunks :
  madeInOrder sentences chunkSize lookahead chunks ->
  (length chunks - 1) * chunkSize < length sentences ->
  join (List.map text chunks)
  = join (take (length chunks * chunkSize) sentences).
Proof.
  induction chunks as [|c init IH] using rev_ind; intros Hinv Hlen.
  - reflexivity.
  - rewrite length_app in *. cbn [length] in *.
    replace (length init + 1 - 1) with (length init) in Hlen by lia.
    assert (Hc : c = makeChunk sentences chunkSize lookahead
                       (length init * chunkSize) init).
    { rewrite (Hinv (length init) c) by (now apply list_lookup_middle).
      now rewrite take_app_length. }
    assert (Hinit : madeInOrder sentences chunkSize lookahead init).
    { intros j d Hj. pose proof (lookup_lt_Some _ _ _ Hj) as Hlt.
      rewrite (Hinv j d) by (now rewrite lookup_app_l).
      now rewrite take_app_le by lia. }
    remember (length init * chunkSize) as i eqn:Ei.
    assert (Htext : text c = join (take chunkSize (drop i sentences))).
    { rewrite Hc. cbn [makeChunk text]. unfold sliceArr.
      now replace (i + chunkSize - i) with chunkSize by lia. }
    assert (Hgroup : take chunkSize (drop i sentences) <> []).
    { intros H. apply (f_equal length) in H.
      rewrite length_take, length_drop in H. cbn in H. lia. }
    rewrite map_app. cbn [List.map].
    replace ((length init + 1) * chunkSize) with (i + chunkSize) by lia.
    rewrite <- take_take_drop, Htext.
    destruct init as [|c0 init0].
    + cbn in Ei. subst i. reflexivity.
    + cbn [length] in *.
      rewrite !join_app; try exact Hgroup; try discriminate.
      * rewrite IH; [reflexivity | exact Hinit | nia].
      * intros H. apply (f_equal length) in H. rewrite length_take in H.
        cbn in H. nia.
Qed.

End ChunkLoop.

(** For a chunk size of at least one sentence the chunker returns, and the
    number of chunks is the number of sentences divided by the chunk size,
    rounded up; there is at least one chunk. *)
Theorem createTextChunks_count (t : JsString.t) (chunkSize lookahead : nat) :
  1 <= chunkSize ->
  exists chunks,
    createTextChunks t chunkSize lookahead = Some chunks
    /\ 1 <= length chunks
    /\ (length chunks - 1) * chunkSize < length (splitIntoSentences t)
    /\ length (splitIntoSentences t) <= length chunks * chunkSize.
Proof.
  intros Hcs. unfold createTextChunks.
  destruct (chunkLoop_terminates (splitIntoSentences t) chunkSize lookahead Hcs
              (length (splitIntoSentences t)) 0 []) as [res Hres]; [lia|].
  exists res. split; [exact Hres|].
  destruct (chunkLoop_result (splitIntoSentences t) chunkSize lookahead Hcs
              _ [] res Hres) as (_ & _ & H3 & H4).
  { intros j c Hj. discriminate Hj. }
  destruct (sentences_facts t) as [Hne _].
  assert (0 < length (splitIntoSentences t))
    by (destruct (splitIntoSentences t); [contradiction | cbn; lia]).
  cbn [length] in H4. destruct H4 as [H4|H4]; [rewrite H4 in H3; cbn in H3; lia|].
  repeat split; [nia | exact H4 | exact H3].
Qed.

Lemma createTextChunks_count_witness :
  exists chunks,
    createTextChunks (lit "One. Two. Three.") 2 1 = Some chunks
    /\ 1 <= length chunks
    /\ (length chunks - 1) * 2 < length (splitIntoSentences (lit "One. Two. Three."))
    /\ length (splitIntoSentences (lit "One. Two. Three.")) <= length chunks * 2.
Proof. apply (createTextChunks_count (lit "One. Two. Three.") 2 1). lia. Defined.

(** The chunk at position [k] has index [k]; it is flagged first, and has
    no previous context, exactly when [k] is 0; it is flagged last, and has
    no lookahead context, exactly when it is the last one. *)
Theorem createTextChunks_flags (t : JsString.t) (chunkSize lookahead : nat)
    (chunks : list TextChunk) (k : nat) (c : TextChunk) :
  1 <= chunkSize ->
  createTextChunks t chunkSize lookahead = Some chunks ->
  chunks !! k = Some c ->
  index c = k
  /\ (isFirst c = true <-> k = 0)
  /\ (previousContext c = None <-> k = 0)
  /\ (isLast c = true <-> S k = length chunks)
  /\ (lookaheadContext c = None <-> S k = length chunks).
Proof.
  intros Hcs Hrun Hk. unfold createTextChunks in Hrun.
  destruct (chunkLoop_result (splitIntoSentences t) chunkSize lookahead Hcs
              _ [] chunks Hrun) as (Hinv & _ & H3 & H4).
  { intros j d Hj. discriminate Hj. }
  pose proof (lookup_lt_Some _ _ _ Hk) as Hlt.
  rewrite (Hinv k c Hk). cbn [makeChunk index isFirst isLast previousContext
                              lookaheadContext].
  assert (Hlast : (length chunks - 1) * chunkSize < length (splitIntoSentences t)).
  { destruct H4 as [H4|H4]; [cbn in H4; lia | exact H4]. }
  split; [rewrite length_take; lia|].
  split; [rewrite Nat.eqb_eq; nia|].
  split.
  - destruct (0 <? k * chunkSize) eqn:E.
    + apply Nat.ltb_lt in E. split; [discriminate | intros ->; lia].
    + apply Nat.ltb_ge in E. split; [intros _; nia | reflexivity].
  - split.
    + rewrite Nat.leb_le. split; intros H; [nia|].
      replace (k * chunkSize + chunkSize) with (length chunks * chunkSize)
        by (rewrite <- H; lia).
      exact H3.
    + destruct (k * chunkSize + chunkSize <? length (splitIntoSentences t)) eqn:E.
      * apply Nat.ltb_lt in E. split; [discriminate | intros H].
        replace (k * chunkSize + chunkSize) with (length chunks * chunkSize) in E
          by (rewrite <- H; lia).
        lia.
      * apply Nat.ltb_ge in E. split; [intros _; nia | reflexivity].
Qed.

Lemma createTextChunks_flags_witness :
  let c0 := mkTextChunk (lit "One. Two.") 0 true false None (Some (lit "Three.")) in
  let c1 := mkTextChunk (lit "Three.") 1 false true (Some (lit "Two.")) None in
  index c1 = 1
  /\ (isFirst c1 = true <-> 1 = 0)
  /\ (previousContext c1 = None <-> 1 = 0)
  /\ (isLast c1 = true <-> 2 = length [c0; c1])
  /\ (lookaheadContext c1 = None <-> 2 = length [c0; c1]).
Proof.
  cbv zeta.
  apply (createTextChunks_flags (lit "One. Two. Three.") 2 1
           [mkTextChunk (lit "One. Two.") 0 true false None (Some (lit "Three."));
            mkTextChunk (lit "Three.") 1 false true (Some (lit "Two.")) None]
           1 (mkTextChunk (lit "Three.") 1 false true (Some (lit "Two.")) None));
    [lia | vm_compute; reflexivity | reflexivity].
Defined.

(** For a chunk size of at least one sentence the texts of the chunks,
    joined by single spaces, are the sentences joined by single spaces: no
    sentence is dropped, repeated or moved. *)
Theorem createTextChunks_covers (t : JsString.t) (chunkSize lookahead : nat)
    (chunks : list TextChunk) :
  1 <= chunkSize ->
  createTextChunks t chunkSize lookahead = Some chunks ->
  join (List.map text chunks) = join (splitIntoSentences t).
Proof.
  intros Hcs Hrun. unfold createTextChunks in Hrun.
  destruct (chunkLoop_result (splitIntoSentences t) chunkSize lookahead Hcs
              _ [] chunks Hrun) as (Hinv & _ & H3 & H4).
  { intros j d Hj. discriminate Hj. }
  destruct (sentences_facts t) as [Hne _].
  assert (0 < length (splitIntoSentences t))
    by (destruct (splitIntoSentences t); [contradiction | cbn; lia]).
  rewrite (madeInOrder_texts _ chunkSize lookahead Hcs chunks Hinv).
  - now rewrite take_ge by lia.
  - destruct H4 as [H4|H4]; [rewrite H4 in H3; cbn in H3; lia | exact H4].
Qed.

Lemma createTextChunks_covers_witness :
  join [lit "One. Two."; lit "Three."]
  = join (splitIntoSentences (lit "One. Two. Three.")).
Proof.
  apply (createTextChunks_covers (lit "One. Two. Three.") 2 1
           [mkTextChunk (lit "One. Two.") 0 true false None (Some (lit "Three."));
            mkTextChunk (lit "Three.") 1 false true (Some (lit "Two.")) None]);
    [lia | vm_compute; reflexivity].
Defined.

(** With a chunk size of zero the loop of the chunker never ends, whatever
    the text: no amount of fuel lets it return. *)
Theorem createTextChunks_zero_size_diverges
    (fuel : nat) (t : JsString.t) (lookahead : nat) (chunks : list TextChunk) :
  chunkLoop fuel (splitIntoSentences t) 0 lookahead 0 chunks = None.
Proof.
  destruct (sentences_facts t) as [Hne _].
  assert (E : (0 <? length (splitIntoSentences t)) = true).
  { apply Nat.ltb_lt. destruct (splitIntoSentences t); [contradiction | cbn; lia]. }
  revert chunks. induction fuel as [|f IH]; intros chunks; cbn [chunkLoop];
    rewrite E; [reflexivity|].
  apply IH.
Qed.

Lemma createTextChunks_count_general (t : JsString.t) :
  exists chunks,
    createTextChunks t 1 1 = Some chunks
    /\ length chunks = length (splitIntoSentences t)
    /\ madeInOrder (splitIntoSentences t) 1 1 chunks.
Proof.
  unfold createTextChunks.
  destruct (chunkLoop_terminates (splitIntoSentences t) 1 1 (le_n 1)
              (length (splitIntoSentences t)) 0 []) as [res Hres]; [lia|].
  exists res. split; [exact Hres|].
  destruct (chunkLoop_result (splitIntoSentences t) 1 1 (le_n 1)
              _ [] res Hres) as (Hinv & _ & H3 & H4).
  { intros j c Hj. discriminate Hj. }
  split; [| exact Hinv].
  destruct H4 as [H4|H4]; cbn [length] in *; lia.
Qed.

(** With one sentence per chunk and one sentence of context, whatever the
    number of sentences: there is one chunk per sentence, its text is the
    sentence, its previous context is the sentence before and its
    lookahead context the sentence after, each absent where there is no
    such sentence. *)
Theorem createTextChunks_neighbours (t : JsString.t) :
  exists chunks,
    createTextChunks t 1 1 = Some chunks
    /\ length chunks = length (splitIntoSentences t)
    /\ forall k c,
         chunks !! k = Some c ->
         splitIntoSentences t !! k = Some (text c)
         /\ previousContext c
            = match k with O => None | S j => splitIntoSentences t !! j end
         /\ lookaheadContext c = splitIntoSentences t !! S k.
Proof.
  destruct (createTextChunks_count_general t) as (chunks & Hrun & Hlen & Hinv).
  exists chunks. split; [exact Hrun|]. split; [exact Hlen|].
  intros k c Hk. pose proof (lookup_lt_Some _ _ _ Hk) as Hlt.
  rewrite Hlen in Hlt.
  destruct (lookup_lt_is_Some_2 (splitIntoSentences t) k Hlt) as [x Hx].
  rewrite (Hinv k c Hk). cbn [makeChunk text previousContext lookaheadContext].
  unfold sliceArr. rewrite !Nat.mul_1_r.
  replace (k + 1 - k) with 1 by lia.
  rewrite (drop_S _ _ _ Hx). cbn [take firstn join]. split; [exact Hx|]. split.
  - destruct k as [|j]; [reflexivity|].
    cbn [Nat.ltb Nat.leb]. replace (Nat.max 0 (S j - 1)) with j by lia.
    replace (S j - j) with 1 by lia.
    assert (Hj : j < length (splitIntoSentences t)) by lia.
    destruct (lookup_lt_is_Some_2 _ j Hj) as [y Hy].
    now rewrite (drop_S _ _ _ Hy), Hy.
  - destruct (k + 1 <? length (splitIntoSentences t)) eqn:E.
    + apply Nat.ltb_lt in E.
      replace (Nat.min (length (splitIntoSentences t)) (k + 1 + 1) - (k + 1))
        with 1 by lia.
      destruct (lookup_lt_is_Some_2 (splitIntoSentences t) (k + 1) E) as [z Hz].
      rewrite (drop_S _ _ _ Hz). cbn [take firstn join].
      now replace (S k) with (k + 1) by lia.
    + apply Nat.ltb_ge in E. symmetry. apply lookup_ge_None_2. lia.
Qed.

End ChunkingProps.

(* ===================================================================== *)
(** ** Properties of the advisory utilities *)
(* ===================================================================== *)

Module ChunkHeuristicsProps.
Import JsString Chunking ChunkHeuristics SampleNotions.

Local Open Scope Q_scope.

Lemma splitFrom_nonempty b cur s : (1 <= length (splitFrom b cur s))%nat.
Proof.
  revert b cur. induction s as [|c s IH]; intros b cur; cbn; [lia|].
  destruct (is_space c); [destruct b|]; cbn; try apply IH.
  specialize (IH true []). lia.
Qed.

Lemma splitFrom_word b cur w rest :
  isWord w ->
  splitFrom b cur (w ++ rest) = splitFrom false (cur ++ w) rest.
Proof.
  intros [Hne Hw]. revert b cur.
  induction w as [|c w IH]; intros b cur; [contradiction|].
  cbn in Hw. apply andb_true_iff in Hw. destruct Hw as [Hc Hw].
  apply negb_true_iff in Hc. cbn. rewrite Hc.
  destruct w as [|d w'].
  - reflexivity.
  - rewrite IH by (discriminate || exact Hw). now rewrite <- app_assoc.
Qed.

Lemma splitFrom_join b ws :
  ws <> [] -> Forall isWord ws -> splitFrom b [] (join ws) = ws.
Proof.
  intros Hne Hall. revert b.
  induction Hall as [|w ws Hw Hall IH]; intros b; [contradiction|].
  destruct ws as [|w' ws'].
  - cbn [join]. rewrite <- (app_nil_r w) at 1.
    now rewrite (splitFrom_word b [] w [] Hw).
  - change (join (w :: w' :: ws')) with (w ++ SPACE :: join (w' :: ws')).
    rewrite (splitFrom_word b [] w _ Hw). cbn [app splitFrom].
    change (is_space SPACE) with true. cbn iota.
    now rewrite IH by discriminate.
Qed.

(** Words joined by single spaces split back into the same words, and the
    duration estimated for such a text is 0.4 seconds per word. *)
Theorem splitSpaces_join (ws : list JsString.t) :
  ws <> [] ->
  Forall isWord ws ->
  splitSpaces (join ws) = ws
  /\ estimateDuration (join ws) == inject_Z (Z.of_nat (length ws)) * (2 # 5).
Proof.
  intros Hne Hall.
  assert (H : splitSpaces (join ws) = ws) by now apply splitFrom_join.
  split; [exact H|]. unfold estimateDuration. rewrite H. field.
Qed.

Lemma splitSpaces_join_witness :
  splitSpaces (join [lit "Hello"; lit "big"; lit "world."])
  = [lit "Hello"; lit "big"; lit "world."]
  /\ estimateDuration (join [lit "Hello"; lit "big"; lit "world."])
     == inject_Z (Z.of_nat 3) * (2 # 5).
Proof.
  apply (splitSpaces_join [lit "Hello"; lit "big"; lit "world."]).
  - discriminate.
  - repeat constructor; try discriminate; vm_compute; reflexivity.
Defined.

(** The duration estimated is never below 0.4 seconds: a text without a
    word, the empty text too, counts as one word. *)
Theorem estimateDuration_at_least (t : JsString.t) :
  2 # 5 <= estimateDuration t /\ estimateDuration [] == 2 # 5.
Proof.
  split; [| vm_compute; reflexivity].
  unfold estimateDuration, splitSpaces.
  pose proof (splitFrom_nonempty false [] t) as H.
  set (n := length (splitFrom false [] t)) in *. clearbody n.
  assert (Hn : 1 <= inject_Z (Z.of_nat n)).
  { change 1 with (inject_Z 1). rewrite <- Zle_Qle. lia. }
  apply Qle_shift_div_l; [reflexivity|].
  assert (E : 150 / 60 == 5 # 2) by reflexivity. rewrite E. lra.
Qed.

Lemma numGt_value a b q :
  valueOf b = Some q ->
  (numGt a b = true <-> q < inject_Z (Z.of_nat a))
  /\ (numGt a b = false <-> inject_Z (Z.of_nat a) <= q).
Proof.
  intros Hv.
  assert (E : numGt a b = negb (Qle_bool (inject_Z (Z.of_nat a)) q)).
  { destruct b; cbn in Hv; try discriminate Hv;
      injection Hv as <-; reflexivity. }
  rewrite E. split.
  - rewrite negb_true_iff, <- not_true_iff_false, Qle_bool_iff.
    split; [apply Qnot_le_lt | apply Qlt_not_le].
  - rewrite negb_false_iff. apply Qle_bool_iff.
Qed.

Lemma wordsIn_snoc l s :
  wordsIn (l ++ [s]) = (wordsIn l + length (splitSpaces s))%nat.
Proof. unfold wordsIn. rewrite map_app, list_sum_app. cbn. lia. Qed.

Lemma sizeLoop_fits target rest :
  forall done wordCount chunkSize,
    wordCount = wordsIn done ->
    (chunkSize = length done \/ (done = [] /\ chunkSize = 1%nat)) ->
    ((2 <= length done)%nat -> numGt wordCount target = false) ->
    let k := sizeLoop target rest (length done) wordCount chunkSize in
    (chunkSize <= k)%nat
    /\ (k <= Nat.max 1 (length (done ++ rest)))%nat
    /\ ((2 <= k)%nat -> numGt (wordsIn (take k (done ++ rest))) target = false)
    /\ ((1 <= k < length (done ++ rest))%nat ->
        numGt (wordsIn (take (S k) (done ++ rest))) target = true).
Proof.
  induction rest as [|s rest IH]; intros done wordCount chunkSize Hwc Hcs Hfit;
    cbn zeta.
  - cbn [sizeLoop]. rewrite app_nil_r.
    assert (Hk : chunkSize = length done \/ (length done = 0 /\ chunkSize = 1)%nat).
    { destruct Hcs as [H|[-> H]]; [now left | now right]. }
    split; [lia|]. split; [lia|]. split.
    + intros H2. destruct Hk as [->|[_ ->]]; [| lia].
      rewrite take_ge by lia. rewrite <- Hwc. apply Hfit. lia.
    + intros H. lia.
  - cbn [sizeLoop].
    destruct (numGt _ target && (0 <? length done)%nat) eqn:E.
    + apply andb_true_iff in E. destruct E as [Egt Epos].
      apply Nat.ltb_lt in Epos.
      destruct Hcs as [->|[-> _]]; [| cbn in Epos; lia].
      rewrite length_app. cbn [length].
      split; [lia|]. split; [lia|]. split.
      * intros H2. rewrite take_app_length. rewrite <- Hwc. now apply Hfit.
      * intros _.
        replace (S (length done)) with (length (done ++ [s]))
          by (rewrite length_app; cbn; lia).
        replace (done ++ s :: rest) with ((done ++ [s]) ++ rest)
          by now rewrite <- app_assoc.
        rewrite take_app_length, wordsIn_snoc, <- Hwc. exact Egt.
    + specialize (IH (done ++ [s]) (wordCount + length (splitSpaces s))%nat
                     (S (length done))).
      rewrite length_app in IH. cbn [length] in IH.
      replace (length done + 1)%nat with (S (length done)) in IH by lia.
      rewrite <- app_assoc in IH. cbn [app] in IH.
      destruct IH as (H1 & H2 & H3 & H4).
      * now rewrite wordsIn_snoc, Hwc.
      * left. reflexivity.
      * intros Hlen. apply andb_false_iff in E. destruct E as [E|E].
        -- exact E.
        -- apply Nat.ltb_ge in E. lia.
      * split; [| split; [exact H2 | split; [exact H3 | exact H4]]].
        destruct Hcs as [->|[_ ->]]; lia.
Qed.

(** The chunk size chosen lies between 1 and the number of sentences. The
    budget of words is the double that the code computes,
    [(targetLatencyMs / 1000) * estimatedProcessingRate] with both
    roundings. When the size is 2 or more, the words of that many leading
    sentences do not exceed the budget; and when it is less than the number
    of sentences, one sentence more would exceed it. For a finite budget
    these are the inequalities between the counts and the number that the
    budget stands for. *)
Theorem calculateOptimalChunkSize_fits
    (t : JsString.t) (targetLatencyMs estimatedProcessingRate : double) :
  let sentences := splitIntoSentences t in
  let k := calculateOptimalChunkSize t targetLatencyMs estimatedProcessingRate in
  let targetWords := targetWordsOf targetLatencyMs estimatedProcessingRate in
  (1 <= k <= length sentences)%nat
  /\ ((2 <= k)%nat -> numGt (wordsIn (take k sentences)) targetWords = false)
  /\ ((k < length sentences)%nat ->
      numGt (wordsIn (take (S k) sentences)) targetWords = true)
  /\ (forall q, valueOf targetWords = Some q ->
        ((2 <= k)%nat ->
         inject_Z (Z.of_nat (wordsIn (take k sentences))) <= q)
        /\ ((k < length sentences)%nat ->
            q < inject_Z (Z.of_nat (wordsIn (take (S k) sentences))))).
Proof.
  cbv zeta.
  set (tw := targetWordsOf targetLatencyMs estimatedProcessingRate).
  set (k := calculateOptimalChunkSize t targetLatencyMs estimatedProcessingRate).
  assert (H : (1 <= k <= length (splitIntoSentences t))%nat
              /\ ((2 <= k)%nat ->
                  numGt (wordsIn (take k (splitIntoSentences t))) tw = false)
              /\ ((k < length (splitIntoSentences t))%nat ->
                  numGt (wordsIn (take (S k) (splitIntoSentences t))) tw = true)).
  { subst k. unfold calculateOptimalChunkSize. fold tw.
    destruct (ChunkingProps.sentences_facts t) as [Hne _].
    assert (Hlen : (1 <= length (splitIntoSentences t))%nat)
      by (destruct (splitIntoSentences t); [contradiction | cbn; lia]).
    destruct (length (splitIntoSentences t) <=? 1)%nat eqn:E.
    - apply Nat.leb_le in E. split; [lia|]. split; intros; lia.
    - apply Nat.leb_gt in E.
      pose proof (sizeLoop_fits tw (splitIntoSentences t) [] 0%nat 1%nat) as H.
      cbn [length app] in H. cbv zeta in H.
      destruct H as (H1 & H2 & H3 & H4);
        [reflexivity | right; split; reflexivity | intros; lia |].
      set (r := sizeLoop _ _ 0 0 1) in *.
      replace (Nat.max 1 r) with r by lia.
      split; [lia|]. split; [exact H3|]. intros Hk. apply H4. lia. }
  destruct H as (Hk & Hfit & Hnext).
  split; [exact Hk|]. split; [exact Hfit|]. split; [exact Hnext|].
  intros q Hq. split.
  - intros H2. apply (numGt_value _ tw q Hq). now apply Hfit.
  - intros Hlt. apply (numGt_value _ tw q Hq). now apply Hnext.
Qed.

(** The rounding of the budget shows in the result. For a latency of 580 ms
    at 50 words per second the budget is the double next below 29, so a
    second sentence that brings the count to 29 is left out, which a budget
    of exactly 29 words would admit. *)
Example calculateOptimalChunkSize_rounded_budget :
  targetWordsOf (ofZ 580) (ofZ 50)
  = SpecFloat.S754_finite false 8162774324609023 (-48)
  /\ (exists q, valueOf (targetWordsOf (ofZ 580) (ofZ 50)) = Some q
                /\ q < 29 /\ 29 - q < 1 # 100000000000000)
  /\ List.map (fun s => length (splitSpaces s))
       (splitIntoSentences twentyNineWords) = [14; 15]%nat
  /\ calculateOptimalChunkSize twentyNineWords (ofZ 580) (ofZ 50) = 1%nat
  /\ calculateOptimalChunkSize twentyNineWords (ofZ 600) (ofZ 50) = 2%nat.
Proof.
  split; [vm_compute; reflexivity|]. split.
  - eexists. split; [vm_compute; reflexivity|]. split; vm_compute; reflexivity.
  - repeat split; vm_compute; reflexivity.
Qed.

End ChunkHeuristicsProps.

(* ===================================================================== *)
(** ** Further properties of the buffer manager *)
(* ===================================================================== *)

Module BufferManagerProps.
Import BufferManager SampleNotions.

Local Open Scope Q_scope.

(** *** Peak and normalization *)

Lemma Qabs_zero x : Qabs x <= 0 -> x == 0.
Proof.
  intros H. apply Qabs_Qle_condition in H. destruct H as [H1 H2].
  apply Qle_antisym; [exact H2|]. exact H1.
Qed.

(** [findPeak] is the largest absolute value in the array: no sample
    exceeds it, a sample of a non-empty array attains it, and it is zero
    exactly when every sample is zero. *)
Theorem findPeak_is_maximum (l : list Q) :
  (forall x, In x l -> Qabs x <= findPeak l)
  /\ (l <> [] -> exists x, In x l /\ findPeak l == Qabs x)
  /\ (findPeak l == 0 <-> Forall (fun x => x == 0) l).
Proof.
  split; [intros x Hx; now apply BufferManagerSpec.peak_fold_bounds|].
  assert (Hzero : findPeak l == 0 -> Forall (fun x => x == 0) l).
  { intros H. apply List.Forall_forall. intros x Hx. apply Qabs_zero.
    rewrite <- H. now apply BufferManagerSpec.peak_fold_bounds. }
  split.
  - intros Hne.
    destruct (BufferManagerSpec.peak_fold_attained l 0) as [E|(x & Hx & E)].
    + destruct l as [|x l']; [contradiction|]. exists x. split; [now left|].
      fold (findPeak (x :: l')) in E. rewrite E.
      assert (H : findPeak (x :: l') == 0) by (rewrite E; reflexivity).
      apply Hzero in H. apply Forall_cons in H. destruct H as [H _].
      rewrite H. reflexivity.
    + exists x. split; [exact Hx|]. fold (findPeak l) in E. rewrite E. reflexivity.
  - split; [exact Hzero|].
    intros Hall. apply Qle_antisym; [| apply BufferManagerSpec.findPeak_nonneg].
    apply BufferManagerSpec.peak_fold_upper; [apply Qle_refl|].
    intros x Hx. rewrite List.Forall_forall in Hall. rewrite (Hall x Hx).
    apply Qle_refl.
Qed.

Lemma normalizeAudio_cases m l :
  normalizeAudio m l = l
  \/ (~ findPeak l == 0 /\ findPeak l < targetPeak m
      /\ normalizeAudio m l
         = List.map (fun x => clamp (x * (targetPeak m / findPeak l))) l).
Proof.
  unfold normalizeAudio.
  destruct (Qeq_bool (findPeak l) 0) eqn:E0; [now left|].
  destruct (Qgeb (findPeak l) (targetPeak m)) eqn:E1; [now left|].
  right. split; [| split; [| reflexivity]].
  - intros H. apply Qeq_bool_iff in H. congruence.
  - apply Qnot_le_lt. intros H. unfold Qgeb in E1.
    apply Qle_bool_iff in H. congruence.
Qed.

Lemma clamp_range v : -1 <= clamp v <= 1.
Proof.
  unfold clamp. split; [apply Q.le_max_l|].
  apply Q.max_lub; [lra | apply Q.le_min_l].
Qed.

Lemma clamp_sign v : (0 <= v -> 0 <= clamp v) /\ (v <= 0 -> clamp v <= 0).
Proof.
  unfold clamp. split; intros H.
  - apply Qle_trans with (Qmin 1 v); [apply Q.min_glb; lra | apply Q.le_max_r].
  - apply Q.max_lub; [lra|].
    apply Qle_trans with v; [apply Q.le_min_r | exact H].
Qed.

Lemma lookup_map {A B : Type} (f : A -> B) (l : list A) (i : nat) :
  List.map f l !! i = f <$> l !! i.
Proof.
  revert i. induction l as [|x l IH]; intros [|i]; cbn; try reflexivity.
  apply IH.
Qed.

(** Normalizing keeps the number of samples, and when it changes the array
    every sample of the result lies between -1 and 1. It never turns a
    sample down and never changes its sign: every sample of the result has
    the sign of the sample it comes from and is at least as large in
    absolute value, up to the limit of 1. *)
Theorem normalizeAudio_never_attenuates (m : AudioBufferManager) (l : list Q) :
  length (normalizeAudio m l) = length l
  /\ (normalizeAudio m l <> l ->
      Forall (fun y => -1 <= y <= 1) (normalizeAudio m l))
  /\ (forall i x,
        l !! i = Some x ->
        exists y,
          normalizeAudio m l !! i = Some y
          /\ (0 <= x -> 0 <= y)
          /\ (x <= 0 -> y <= 0)
          /\ Qmin 1 (Qabs x) <= Qabs y).
Proof.
  destruct (normalizeAudio_cases m l) as [E|(H0 & Hlt & E)].
  - rewrite E. split; [reflexivity|]. split; [intros H; now contradiction H|].
    intros i x Hx. exists x. split; [exact Hx|].
    split; [tauto|]. split; [tauto|]. apply Q.le_min_r.
  - rewrite E. split; [apply length_map|]. split.
    + intros _. apply List.Forall_forall. intros y Hy.
      apply in_map_iff in Hy. destruct Hy as (x & <- & _). apply clamp_range.
    + intros i x Hx.
      assert (Hp : 0 < findPeak l).
      { pose proof (BufferManagerSpec.findPeak_nonneg l) as Hge.
        destruct (Qle_lt_or_eq _ _ Hge) as [H|H]; [exact H|].
        exfalso. apply H0. symmetry. exact H. }
      assert (Ht : 0 < targetPeak m) by lra.
      set (p := findPeak l) in *. set (t := targetPeak m) in *.
      assert (Hg : 1 <= t / p).
      { apply Qle_shift_div_l; [exact Hp | lra]. }
      exists (clamp (x * (t / p))). rewrite lookup_map, Hx.
      split; [reflexivity|].
      split; [| split].
      * intros Hx0. apply clamp_sign. apply Qmult_le_0_compat; lra.
      * intros Hx0. apply clamp_sign.
        assert (Hneg : 0 <= (- x) * (t / p))
          by (apply Qmult_le_0_compat; lra).
        assert (Heq : x * (t / p) == - ((- x) * (t / p))) by ring.
        rewrite Heq. lra.
      * rewrite (BufferManagerSpec.Qabs_scaled x p t Hp Ht).
        apply Q.min_le_compat_l.
        pose proof (Qabs_nonneg x) as Ha.
        assert (Hmore : 0 <= Qabs x * (t / p - 1))
          by (apply Qmult_le_0_compat; lra).
        assert (Heq : Qabs x * (t / p) == Qabs x + Qabs x * (t / p - 1))
          by ring.
        rewrite Heq. lra.
Qed.

(** *** The fades *)

Ltac bool_facts :=
  repeat match goal with
  | H : (_ <? _)%nat = true |- _ => apply Nat.ltb_lt in H
  | H : (_ <? _)%nat = false |- _ => apply Nat.ltb_ge in H
  | H : (_ <=? _)%nat = true |- _ => apply Nat.leb_le in H
  | H : (_ <=? _)%nat = false |- _ => apply Nat.leb_gt in H
  | H : (_ <? _)%Z = true |- _ => apply Z.ltb_lt in H
  | H : (_ <? _)%Z = false |- _ => apply Z.ltb_ge in H
  | H : (_ <=? _)%Z = true |- _ => apply Z.leb_le in H
  | H : (_ <=? _)%Z = false |- _ => apply Z.leb_gt in H
  end.

Lemma fold_alter_lookup (g : nat -> Q -> Q) (idx : nat -> nat) (a n : nat)
    (l : list Q) (j : nat) :
  (forall i, (i < n)%nat -> idx i = (a + i)%nat) ->
  fold_left (fun res i => alter (g i) (idx i) res) (seq 0 n) l !! j
  = if (a <=? j)%nat && (j <? a + n)%nat then g (j - a)%nat <$> l !! j
    else l !! j.
Proof.
  revert l. induction n as [|n IH]; intros l Hidx.
  - cbn [seq fold_left]. rewrite Nat.add_0_r.
    destruct (a <=? j)%nat eqn:E1; [| reflexivity].
    destruct (j <? a)%nat eqn:E2; [| reflexivity].
    apply Nat.leb_le in E1. apply Nat.ltb_lt in E2. lia.
  - rewrite seq_S, fold_left_app. cbn [fold_left Nat.add].
    rewrite list_lookup_alter, (Hidx n) by lia.
    destruct (decide ((a + n)%nat = j)) as [<-|Hne];
      rewrite IH by (intros i Hi; apply Hidx; lia).
    + replace (a <=? a + n)%nat with true by (symmetry; apply Nat.leb_le; lia).
      replace (a + n <? a + n)%nat with false
        by (symmetry; apply Nat.ltb_ge; lia).
      replace (a + n <? a + S n)%nat with true
        by (symmetry; apply Nat.ltb_lt; lia).
      cbn [andb]. now replace (a + n - a)%nat with n by lia.
    + destruct (a <=? j)%nat eqn:E1; cbn [andb]; [| reflexivity].
      destruct (j <? a + n)%nat eqn:E2, (j <? a + S n)%nat eqn:E3;
        try reflexivity; bool_facts; lia.
Qed.

Lemma fold_alter_length (g : nat -> Q -> Q) (idx : nat -> nat) (s : list nat)
    (l : list Q) :
  length (fold_left (fun res i => alter (g i) (idx i) res) s l) = length l.
Proof.
  revert l. induction s as [|i s IH]; intros l; cbn [fold_left]; [reflexivity|].
  rewrite IH. apply length_alter.
Qed.

(** The fade-in scales sample [j] by [j / n] for [j] below the fade length
    [n], the shorter of the cross-fade and the array, and leaves the others
    alone; the fade-out scales the last [n] samples, the one [i] places
    into the fade by [1 - i / n], and leaves the others alone. Neither
    changes the number of samples. *)
Theorem crossfade_pointwise (m : AudioBufferManager) (l : list Q) (j : nat) :
  let n := fadeLength m l in
  let startIdx := (Z.of_nat (length l) - n)%Z in
  applyCrossfadeIn m l !! j
  = (if (Z.of_nat j <? n)%Z
     then (fun v => v * (inject_Z (Z.of_nat j) / inject_Z n)) <$> l !! j
     else l !! j)
  /\ applyCrossfadeOut m l !! j
     = (if (startIdx <=? Z.of_nat j)%Z && (0 <? n)%Z
        then (fun v => v * (1 - inject_Z (Z.of_nat j - startIdx) / inject_Z n))
             <$> l !! j
        else l !! j)
  /\ length (applyCrossfadeIn m l) = length l
  /\ length (applyCrossfadeOut m l) = length l.
Proof.
  cbv zeta. unfold applyCrossfadeIn, applyCrossfadeOut, scaleAt.
  set (n := fadeLength m l).
  assert (Hn : (n <= Z.of_nat (length l))%Z) by (unfold n, fadeLength; lia).
  split; [| split; [| split]].
  - rewrite (fold_alter_lookup
               (fun i v => v * (inject_Z (Z.of_nat i) / inject_Z n))
               (fun i => i) 0 (Z.to_nat n) l j) by (intros; reflexivity).
    cbn [Nat.leb andb Nat.add]. rewrite Nat.sub_0_r.
    destruct (j <? Z.to_nat n)%nat eqn:E1, (Z.of_nat j <? n)%Z eqn:E2;
      try reflexivity; bool_facts; lia.
  - destruct (0 <? n)%Z eqn:Epos.
    + apply Z.ltb_lt in Epos.
      rewrite (fold_alter_lookup
                 (fun i v => v * (1 - inject_Z (Z.of_nat i) / inject_Z n))
                 (fun i => Z.to_nat (Z.of_nat (length l) - n + Z.of_nat i))
                 (Z.to_nat (Z.of_nat (length l) - n)) (Z.to_nat n) l j)
        by (intros; lia).
      rewrite andb_true_r.
      destruct (Z.of_nat (length l) - n <=? Z.of_nat j)%Z eqn:E1.
      * apply Z.leb_le in E1.
        replace (Z.to_nat (Z.of_nat (length l) - n) <=? j)%nat with true
          by (symmetry; apply Nat.leb_le; lia).
        cbn [andb].
        replace (Z.of_nat (j - Z.to_nat (Z.of_nat (length l) - n)))
          with (Z.of_nat j - (Z.of_nat (length l) - n))%Z by lia.
        destruct (j <? _)%nat eqn:E2; [reflexivity|].
        apply Nat.ltb_ge in E2.
        rewrite (lookup_ge_None_2 l j) by lia. reflexivity.
      * apply Z.leb_gt in E1.
        replace (Z.to_nat (Z.of_nat (length l) - n) <=? j)%nat with false
          by (symmetry; apply Nat.leb_gt; lia).
        reflexivity.
    + apply Z.ltb_ge in Epos. rewrite andb_false_r.
      replace (Z.to_nat n) with 0%nat by lia. reflexivity.
  - apply fold_alter_length.
  - apply fold_alter_length.
Qed.

(** *** The store *)

Lemma applyCrossfadeIn_length m l : length (applyCrossfadeIn m l) = length l.
Proof. apply fold_alter_length. Qed.

Lemma applyCrossfadeOut_length m l : length (applyCrossfadeOut m l) = length l.
Proof. apply fold_alter_length. Qed.

Lemma normalizeAudio_length m l : length (normalizeAudio m l) = length l.
Proof.
  destruct (normalizeAudio_cases m l) as [->|(_ & _ & ->)];
    [reflexivity | apply length_map].
Qed.

Lemma sameButSamples_refl c : sameButSamples c c.
Proof. repeat split. Qed.

Lemma sameButSamples_trans a b c :
  sameButSamples a b -> sameButSamples b c -> sameButSamples a c.
Proof.
  unfold sameButSamples. intros (?&?&?&?&?&?&?&?) (?&?&?&?&?&?&?&?).
  repeat split; congruence.
Qed.

Lemma fadeOutChunk_same m c : sameButSamples (fadeOutChunk m c) c.
Proof.
  unfold sameButSamples, fadeOutChunk, setPcmBlob. cbn.
  repeat split. apply applyCrossfadeOut_length.
Qed.

Lemma addChunk_pcm_length m p t x :
  length (pcm (snd (addChunk m p t x))) = length p.
Proof.
  cbn [addChunk snd pcm].
  destruct (crossfade m && _ && _); rewrite ?applyCrossfadeIn_length;
    destruct (normalize m); rewrite ?normalizeAudio_length; reflexivity.
Qed.

Lemma addChunk_chunks m p t x :
  exists kept,
    chunks (fst (addChunk m p t x)) = kept ++ [snd (addChunk m p t x)]
    /\ length kept = length (chunks m)
    /\ (forall j c, chunks m !! j = Some c ->
                    exists c', kept !! j = Some c' /\ sameButSamples c' c)
    /\ (forall j, (j + 1 < length (chunks m))%nat -> kept !! j = chunks m !! j)
    /\ (crossfade m = false -> kept = chunks m).
Proof.
  cbn [addChunk fst snd chunks].
  destruct (crossfade m && negb (Nat.eqb (length (chunks m)) 0)
            && (0 <? length (chunks m))%nat) eqn:E.
  - eexists. split; [reflexivity|]. split; [apply length_alter|]. split; [| split].
    + intros j c Hj. rewrite list_lookup_alter.
      destruct (decide ((length (chunks m) - 1)%nat = j)) as [<-|Hne].
      * rewrite Hj. cbn. eexists. split; [reflexivity | apply fadeOutChunk_same].
      * exists c. split; [exact Hj | apply sameButSamples_refl].
    + intros j Hj. apply list_lookup_alter_ne. lia.
    + intros Hcf. rewrite Hcf in E. discriminate E.
  - exists (chunks m). split; [reflexivity|]. split; [reflexivity|].
    split; [| split; [reflexivity | reflexivity]].
    intros j c Hj. exists c. split; [exact Hj | apply sameButSamples_refl].
Qed.

Lemma addChunk_store_facts (m : AudioBufferManager)
    (p : list Q) (t : JsString.t) (x : ChunkMetrics) :
  let m' := fst (addChunk m p t x) in
  let c := snd (addChunk m p t x) in
  chunks m' !! length (chunks m) = Some c
  /\ length (chunks m') = S (length (chunks m))
  /\ length (pcm c) = length p
  /\ duration c = inject_Z (Z.of_nat (length p)) / sampleRate m
  /\ (forall j old, chunks m !! j = Some old ->
        exists new, chunks m' !! j = Some new /\ sameButSamples new old)
  /\ (forall j, (j + 1 < length (chunks m))%nat -> chunks m' !! j = chunks m !! j)
  /\ (crossfade m = false -> take (length (chunks m)) (chunks m') = chunks m).
Proof.
  cbv zeta.
  destruct (addChunk_chunks m p t x) as (kept & E & Hlen & Hsame & Hsame' & Hoff).
  rewrite E. split; [now apply list_lookup_middle|].
  split; [rewrite length_app; cbn; lia|].
  split; [apply addChunk_pcm_length|].
  split.
  - pose proof (addChunk_pcm_length m p t x) as H.
    cbn [addChunk snd pcm duration] in *. now rewrite H.
  - split; [| split].
    + intros j old Hj. destruct (Hsame j old Hj) as (c' & Hc' & Hs).
      exists c'. split; [| exact Hs].
      rewrite lookup_app_l; [exact Hc' | now apply lookup_lt_Some in Hc'].
    + intros j Hj. rewrite lookup_app_l by lia. now apply Hsame'.
    + intros Hcf. rewrite (Hoff Hcf). apply take_app_length.
Qed.

(** What [addChunk] does to the store: the chunk returned is appended; it
    has as many samples as the array given, its duration is that count
    divided by the sample rate; every chunk stored before keeps its place,
    its fields other than the samples and the number of its samples; all of
    them but the last are not touched at all, and neither is the last when
    cross-fade is off. *)
Theorem addChunk_effect_on_store (m : AudioBufferManager)
    (p : list Q) (t : JsString.t) (x : ChunkMetrics) :
  let m' := fst (addChunk m p t x) in
  let c := snd (addChunk m p t x) in
  chunks m' !! length (chunks m) = Some c
  /\ length (chunks m') = S (length (chunks m))
  /\ length (pcm c) = length p
  /\ duration c = inject_Z (Z.of_nat (length p)) / sampleRate m
  /\ (forall j old, chunks m !! j = Some old ->
        exists new, chunks m' !! j = Some new /\ sameButSamples new old)
  /\ (forall j, (j + 1 < length (chunks m))%nat -> chunks m' !! j = chunks m !! j)
  /\ (crossfade m = false -> take (length (chunks m)) (chunks m') = chunks m).
Proof. exact (addChunk_store_facts m p t x). Qed.

Lemma addChunks_stored inputs :
  forall m,
    length (chunks (fst (addChunks m inputs)))
    = (length (chunks m) + length inputs)%nat
    /\ (forall j c, chunks m !! j = Some c ->
          exists c', chunks (fst (addChunks m inputs)) !! j = Some c'
                     /\ sameButSamples c' c)
    /\ (forall k r, snd (addChunks m inputs) !! k = Some r ->
          index r = (length (chunks m) + k)%nat
          /\ isFirst r = Nat.eqb (length (chunks m) + k) 0
          /\ (exists p, inputs !! k = Some (p, text r, metrics r)
                        /\ length (pcm r) = length p)
          /\ exists c, chunks (fst (addChunks m inputs))
                         !! (length (chunks m) + k)%nat = Some c
                       /\ sameButSamples c r).
Proof.
  induction inputs as [|[[p t] x] rest IH]; intros m.
  - cbn. split; [lia|]. split.
    + intros j c Hj. exists c. split; [exact Hj | apply sameButSamples_refl].
    + intros k r Hk. discriminate Hk.
  - cbn [addChunks].
    pose proof (addChunk_store_facts m p t x) as Hadd. cbv zeta in Hadd.
    pose proof (eq_refl : index (snd (addChunk m p t x)) = length (chunks m)) as Hidx.
    pose proof (eq_refl : isFirst (snd (addChunk m p t x))
                          = Nat.eqb (length (chunks m)) 0) as Hfirst.
    pose proof (eq_refl : text (snd (addChunk m p t x)) = t) as Htext.
    pose proof (eq_refl : metrics (snd (addChunk m p t x)) = x) as Hmet.
    destruct (addChunk m p t x) as [m1 c1]. cbn [fst snd] in *.
    destruct Hadd as (Hstored & Hlen1 & Hpcm & _ & Hkeep & _).
    destruct (IH m1) as (IHlen & IHkeep & IHret).
    destruct (addChunks m1 rest) as [m2 cs]. cbn [fst snd length] in *.
    split; [lia|]. split.
    + intros j c Hj. destruct (Hkeep j c Hj) as (c' & Hc' & Hs').
      destruct (IHkeep j c' Hc') as (c'' & Hc'' & Hs'').
      exists c''. split; [exact Hc''|]. eapply sameButSamples_trans; eassumption.
    + intros [|k] r Hk.
      * cbn in Hk. injection Hk as <-. rewrite Nat.add_0_r.
        split; [exact Hidx|]. split; [exact Hfirst|]. split.
        -- exists p. cbn. rewrite Htext, Hmet. split; [reflexivity | exact Hpcm].
        -- apply (IHkeep _ _ Hstored).
      * cbn in Hk. destruct (IHret k r Hk) as (H1 & H2 & H3 & H4).
        rewrite Hlen1 in H1, H2, H4.
        replace (length (chunks m) + S k)%nat
          with (S (length (chunks m)) + k)%nat by lia.
        repeat split; assumption.
Qed.

(** After any sequence of [addChunk] calls on a new manager there is one
    stored chunk per call; the chunk returned by call [k] has index [k], is
    flagged first exactly when [k] is 0, carries the text and the metrics
    given and as many samples as were given; and the chunk stored at
    position [k] is that chunk, its samples and encoded form apart. *)
Theorem stored_chunks_indexed (options : Options.t) (inputs : list ChunkInput)
    (k : nat) (r : AudioChunk) :
  let m := fst (addChunks (constructor options) inputs) in
  let returned := snd (addChunks (constructor options) inputs) in
  length (chunks m) = length inputs
  /\ (returned !! k = Some r ->
      index r = k
      /\ (isFirst r = true <-> k = 0%nat)
      /\ (exists p, inputs !! k = Some (p, text r, metrics r)
                    /\ length (pcm r) = length p)
      /\ exists c, chunks m !! k = Some c /\ sameButSamples c r).
Proof.
  cbv zeta.
  destruct (addChunks_stored inputs (constructor options)) as (Hlen & _ & Hret).
  cbn [constructor chunks length Nat.add] in *.
  split; [exact Hlen|]. intros Hk.
  destruct (Hret k r Hk) as (H1 & H2 & H3 & H4).
  split; [exact H1|]. split; [rewrite H2; apply Nat.eqb_eq|].
  split; [exact H3 | exact H4].
Qed.

(** *** Concatenation without cross-fade *)

Lemma skipn_repeat_zero (k n : nat) :
  skipn k (repeat (0 : Q) n) = repeat 0 (n - k).
Proof.
  revert k. induction n as [|n IH]; intros [|k]; cbn; try reflexivity.
  apply IH.
Qed.

Lemma setAt_append (written src : list Q) (r : nat) :
  (length src <= r)%nat ->
  setAt (written ++ repeat 0 r) src (Z.of_nat (length written))
  = Ok ((written ++ src) ++ repeat 0 (r - length src)).
Proof.
  intros Hr. unfold setAt.
  rewrite length_app, repeat_length.
  destruct (Z.of_nat (length written) <? 0)%Z eqn:E1; [bool_facts; lia|].
  destruct (Z.of_nat (length written + r)
            <? Z.of_nat (length src) + Z.of_nat (length written))%Z eqn:E2;
    [bool_facts; lia|].
  cbn [orb]. rewrite Nat2Z.id. f_equal.
  rewrite take_app_length.
  rewrite drop_app_ge by lia.
  replace (length written + length src - length written)%nat
    with (length src) by lia.
  change (drop (length src) (repeat 0 r)) with (skipn (length src) (repeat 0 r)).
  now rewrite skipn_repeat_zero, <- app_assoc.
Qed.

Lemma concatLoop_plain m rest :
  crossfade m = false \/ (crossfadeSamples m <= 0)%Z ->
  forall written,
    concatLoop m rest
      (written ++ repeat 0 (totalSamples rest), Z.of_nat (length written))
    = Ok (written ++ concat (List.map pcm rest),
          Z.of_nat (length (written ++ concat (List.map pcm rest)))).
Proof.
  intros Hplain.
  assert (Hbranch : forall off,
            crossfade m && (0 <? off)%Z && (0 <? crossfadeSamples m)%Z = false).
  { intros off. destruct Hplain as [->|H]; [reflexivity|].
    replace (0 <? crossfadeSamples m)%Z with false
      by (symmetry; apply Z.ltb_ge; lia).
    apply andb_false_r. }
  induction rest as [|c rest IH]; intros written.
  - cbn. now rewrite !app_nil_r.
  - rewrite BufferManagerSpec.totalSamples_cons.
    cbn [concatLoop concatStep]. rewrite Hbranch.
    rewrite setAt_append by lia.
    replace (length (pcm c) + totalSamples rest - length (pcm c))%nat
      with (totalSamples rest) by lia.
    replace (Z.of_nat (length written) + Z.of_nat (length (pcm c)))%Z
      with (Z.of_nat (length (written ++ pcm c)))
      by (rewrite length_app; lia).
    rewrite IH. cbn [List.map concat]. now rewrite <- !app_assoc.
Qed.

(** With cross-fade off, or a cross-fade length of zero or less, the
    concatenated buffer is the samples of the chunks one after the other,
    and the call does not throw. *)
Theorem concatenation_without_crossfade (m : AudioBufferManager) :
  crossfade m = false \/ (crossfadeSamples m <= 0)%Z ->
  concatenatedSamples m = Ok (concat (List.map pcm (chunks m)))
  /\ getConcatenatedBlob m
     = Ok (wavBlob (concat (List.map pcm (chunks m))) (sampleRate m)).
Proof.
  intros Hplain.
  assert (H : concatenatedSamples m = Ok (concat (List.map pcm (chunks m)))).
  { unfold concatenatedSamples.
    pose proof (concatLoop_plain m (chunks m) Hplain []) as H.
    cbn [app length] in H. change (Z.of_nat 0) with 0%Z in H. rewrite H. f_equal.
    unfold sliceTo.
    destruct (Z.of_nat _ <? 0)%Z eqn:E; [bool_facts; lia|].
    rewrite Nat2Z.id. now apply take_ge. }
  split; [exact H|]. unfold getConcatenatedBlob. now rewrite H.
Qed.

Lemma concatenation_without_crossfade_witness :
  let m := fst (addChunks
                  (constructor (Options.mk (Some 100) (Some false) None None None))
                  [([1; 1; 1], [], someMetrics); ([1 # 2; 1], [], someMetrics)]) in
  concatenatedSamples m = Ok (concat (List.map pcm (chunks m)))
  /\ getConcatenatedBlob m
     = Ok (wavBlob (concat (List.map pcm (chunks m))) (sampleRate m)).
Proof.
  cbv zeta. apply concatenation_without_crossfade. left. reflexivity.
Defined.

End BufferManagerProps.

(* ===================================================================== *)
(** ** Properties of the player *)
(* ===================================================================== *)

Module PlayerProps.
Import Player.

Local Open Scope Q_scope.

Lemma scheduleAll_times calls :
  forall p,
    audioContext p = true -> is_Some (gainNode p) ->
    length (snd (scheduleAll calls p)) = length calls
    /\ (forall d now rest, calls = (d, now) :: rest ->
          snd (scheduleAll calls p) !! 0%nat
          = Some (Qmax (scheduledTime p) now))
    /\ forall i s d now,
         snd (scheduleAll calls p) !! i = Some s ->
         calls !! i = Some (d, now) ->
         now <= s
         /\ forall s' d' now',
              snd (scheduleAll calls p) !! S i = Some s' ->
              calls !! S i = Some (d', now') ->
              s + d <= s' /\ (now' <= s + d -> s' == s + d).
Proof.
  induction calls as [|[d0 now0] rest IH]; intros p Hctx Hgain.
  - cbn. split; [reflexivity|]. split; [intros; discriminate|].
    intros i s d now H. discriminate H.
  - cbn [scheduleAll]. unfold scheduleChunk. rewrite Hctx.
    rewrite (bool_decide_eq_true_2 _ Hgain). cbn [negb orb].
    set (p1 := mkPlayer true (Qmax (scheduledTime p) now0 + d0) true (gainNode p)).
    destruct (IH p1 eq_refl Hgain) as (IHlen & IHhead & IHrest).
    destruct (scheduleAll rest p1) as [p2 times] eqn:Erest. cbn [snd] in *.
    split; [cbn; now rewrite IHlen|]. split.
    + intros d now rest' E. injection E as -> -> _. reflexivity.
    + intros [|i] s d now Hs Hc.
      * cbn in Hs, Hc. injection Hs as <-. injection Hc as -> ->.
        split; [apply Q.le_max_r|].
        intros s' d' now' Hs' Hc'.
        change (times !! 0%nat = Some s') in Hs'.
        change (rest !! 0%nat = Some (d', now')) in Hc'.
        destruct rest as [|[d1 now1] rest1]; [discriminate Hc'|].
        cbn in Hc'. injection Hc' as -> ->.
        rewrite (IHhead d' now' rest1 eq_refl) in Hs'. injection Hs' as <-.
        cbn [scheduledTime p1]. split; [apply Q.le_max_l|].
        intros Hnow. now apply Q.max_l.
      * change (times !! i = Some s) in Hs.
        change (rest !! i = Some (d, now)) in Hc.
        apply (IHrest i s d now Hs Hc).
Qed.

(** Chunks scheduled one after the other on an initialized player do not
    overlap and never start in the past: each starts no earlier than the
    clock read for it and no earlier than the end of the one before, and
    exactly at that end when the clock has not passed it. *)
Theorem schedule_never_overlaps (calls : list (Q * Q)) (p : StreamingAudioPlayer)
    (i : nat) (s d now : Q) :
  audioContext p = true ->
  is_Some (gainNode p) ->
  snd (scheduleAll calls p) !! i = Some s ->
  calls !! i = Some (d, now) ->
  length (snd (scheduleAll calls p)) = length calls
  /\ now <= s
  /\ forall s' d' now',
       snd (scheduleAll calls p) !! S i = Some s' ->
       calls !! S i = Some (d', now') ->
       s + d <= s' /\ (now' <= s + d -> s' == s + d).
Proof.
  intros Hctx Hgain Hs Hc.
  destruct (scheduleAll_times calls p Hctx Hgain) as (Hlen & _ & Hrest).
  split; [exact Hlen|]. exact (Hrest i s d now Hs Hc).
Qed.

Lemma schedule_never_overlaps_witness :
  let p := initialize 0 1 newPlayer in
  let calls := [(2, 0); (3, 1); (1, 9)] in
  length (snd (scheduleAll calls p)) = length calls
  /\ 1 <= 2
  /\ forall s' d' now',
       snd (scheduleAll calls p) !! 2%nat = Some s' ->
       calls !! 2%nat = Some (d', now') ->
       2 + 3 <= s' /\ (now' <= 2 + 3 -> s' == 2 + 3).
Proof.
  cbv zeta.
  apply (schedule_never_overlaps [(2, 0); (3, 1); (1, 9)]
           (initialize 0 1 newPlayer) 1 2 3 1).
  - reflexivity.
  - eexists. reflexivity.
  - vm_compute. reflexivity.
  - reflexivity.
Defined.

(** [setVolume] does nothing on a player without gain node; otherwise it
    sets the gain to the volume brought into the interval from 0 to 1,
    which is the volume itself when it lies there, and touches nothing
    else. *)
Theorem setVolume_clamps (volume : Q) (p : StreamingAudioPlayer) :
  match gainNode p with
  | None => setVolume volume p = p
  | Some _ =>
      exists g,
        setVolume volume p
        = mkPlayer (audioContext p) (scheduledTime p) (isPlaying p) (Some g)
        /\ 0 <= g <= 1
        /\ (0 <= volume <= 1 -> g == volume)
        /\ (volume <= 0 -> g == 0)
        /\ (1 <= volume -> g == 1)
  end.
Proof.
  unfold setVolume. destruct (gainNode p) as [g0|]; [| reflexivity].
  exists (Qmax 0 (Qmin 1 volume)). split; [reflexivity|].
  split; [split; [apply Q.le_max_l | apply Q.max_lub; [lra | apply Q.le_min_l]]|].
  split; [| split].
  - intros [H0 H1]. rewrite (Q.min_r 1 volume) by exact H1. now apply Q.max_r.
  - intros H. apply Q.max_l. apply Qle_trans with volume; [apply Q.le_min_r | exact H].
  - intros H. rewrite (Q.min_l 1 volume) by exact H. apply Q.max_r. lra.
Qed.

End PlayerProps.

(* ===================================================================== *)
(** ** Further properties of the streaming session *)
(* ===================================================================== *)

Module StreamingProps.
Import BufferManager Streaming StreamingNotions.

Local Open Scope Q_scope.

(** *** One turn of the loop *)

Lemma streamLoop_turn env tc rest i ls pcm0 :
  state (session ls) <> cancelled ->
  synthesize env (Chunking.text tc) = Ok pcm0 ->
  streamLoop env (tc :: rest) i ls
  = match onChunkThrows env i with
    | Some e =>
        (mkLoop (interfere env (DuringWork i) (session ls))
                (bufferManager (advance env tc i ls pcm0))
                (loopMetrics (advance env tc i ls pcm0))
                (firstChunkTime (advance env tc i ls pcm0))
                (delivered (advance env tc i ls pcm0)), Some e)
    | None => streamLoop env rest (S i) (advance env tc i ls pcm0)
    end.
Proof.
  intros Hst Hsyn. cbn [streamLoop].
  replace (isState cancelled (session ls)) with false.
  2:{ symmetry. apply not_true_iff_false. intros H.
      apply StreamingSpec.isState_spec in H. contradiction. }
  rewrite Hsyn. unfold advance.
  destruct (addChunk (bufferManager ls) pcm0 (Chunking.text tc) (measured env i))
    as [bm audioChunk].
  cbn [fst snd loopMetrics delivered bufferManager firstChunkTime].
  destruct (onChunkThrows env i); reflexivity.
Qed.

Lemma advance_delivered env tc i ls pcm0 :
  delivered (advance env tc i ls pcm0)
  = delivered ls ++ [deliveredBy env tc i ls pcm0].
Proof. reflexivity. Qed.

Lemma deliveredBy_fields env tc i ls pcm0 :
  text (deliveredBy env tc i ls pcm0) = Chunking.text tc
  /\ isLast (deliveredBy env tc i ls pcm0) = Chunking.isLast tc
  /\ index (deliveredBy env tc i ls pcm0) = length (chunks (bufferManager ls))
  /\ metrics (deliveredBy env tc i ls pcm0) = measured env i.
Proof. repeat split. Qed.

Lemma advance_store env tc i ls pcm0 :
  length (chunks (bufferManager (advance env tc i ls pcm0)))
  = S (length (chunks (bufferManager ls)))
  /\ totalDuration (bufferManager (advance env tc i ls pcm0))
     = totalDuration (bufferManager ls) + duration (deliveredBy env tc i ls pcm0)
  /\ loopMetrics (advance env tc i ls pcm0)
     = loopMetrics ls ++ [metrics (deliveredBy env tc i ls pcm0)].
Proof.
  split; [| split; reflexivity].
  unfold advance. cbn [bufferManager withChunks chunks].
  rewrite length_insert.
  destruct (BufferManagerProps.addChunk_chunks (bufferManager ls) pcm0
              (Chunking.text tc) (measured env i)) as (kept & -> & Hlen & _).
  rewrite length_app. cbn. lia.
Qed.

Lemma booksAgree_advance env tc i ls pcm0 :
  booksAgree ls -> booksAgree (advance env tc i ls pcm0).
Proof.
  intros [Hm Hd]. destruct (advance_store env tc i ls pcm0) as (_ & Htot & Hmet).
  split.
  - rewrite Hmet, advance_delivered, map_app, Hm. reflexivity.
  - rewrite Htot, advance_delivered, map_app, fold_left_app, Hd. reflexivity.
Qed.

Lemma streamLoop_books env textChunks :
  forall i ls, booksAgree ls -> booksAgree (fst (streamLoop env textChunks i ls)).
Proof.
  induction textChunks as [|tc rest IH]; intros i ls Hb; [exact Hb|].
  destruct (StreamingSpec.isState_spec cancelled (session ls)) as [_ Hc].
  destruct (state (session ls)) eqn:Est;
    try (destruct (synthesize env (Chunking.text tc)) as [pcm0|e] eqn:Esyn;
         [ rewrite (streamLoop_turn env tc rest i ls pcm0)
             by (try rewrite Est; congruence || exact Esyn);
           pose proof (booksAgree_advance env tc i ls pcm0 Hb) as Hb';
           destruct (onChunkThrows env i); [exact Hb' | now apply IH]
         | cbn [streamLoop];
           replace (isState cancelled (session ls)) with false
             by (unfold isState; now rewrite Est);
           rewrite Esyn; exact Hb ]).
  cbn [streamLoop]. rewrite Hc by reflexivity. exact Hb.
Qed.

(** When a run returns, its metrics agree with what was delivered: the
    number of chunks is the number of chunks delivered, the per-chunk
    metrics are theirs in order, and the total audio duration is the sum of
    their durations. This holds for a run cut short by a cancellation
    too. *)
Theorem predictStream_metrics_agree (env : Env) (config : StreamingConfig)
    (g : Globals) (r : Run) (sm : StreamMetrics) :
  predictStream env config g = Some r ->
  outcome r = Ok sm ->
  totalChunks sm = length (deliveredChunks r)
  /\ chunkMetrics sm = List.map metrics (deliveredChunks r)
  /\ totalAudioDuration sm
     = fold_left Qplus (List.map duration (deliveredChunks r)) 0
  /\ option_map sessionMetrics (currentSession (globals r)) = Some (Some sm).
Proof.
  unfold predictStream. intros Hrun Hout.
  destruct (loadModel env) as [rate|e]; [| injection Hrun as <-; discriminate Hout].
  destruct (Chunking.createTextChunks _ _ _) as [tcs|]; [| discriminate Hrun].
  match type of Hrun with
  | context [streamLoop env tcs 0 ?l] =>
      pose proof (streamLoop_books env tcs 0 l) as Hb;
      destruct (streamLoop env tcs 0 l) as [ls oe]
  end.
  destruct oe as [e|]; injection Hrun as <-; [discriminate Hout|].
  cbn [outcome] in Hout. injection Hout as <-.
  cbn [fst] in Hb. destruct Hb as [Hm Hd]; [split; reflexivity|].
  cbn [totalChunks chunkMetrics totalAudioDuration deliveredChunks globals
       currentSession option_map sessionMetrics].
  rewrite Hm, length_map. repeat split.
  unfold getTotalDuration.
  replace (totalDuration (finalize (bufferManager ls)))
    with (totalDuration (bufferManager ls)); [exact Hd|].
  unfold finalize. now destruct (0 <? _)%nat.
Qed.

Lemma predictStream_metrics_agree_witness :
  exists r sm,
    predictStream (cancelInCallback 0) threeSentences freshGlobals = Some r
    /\ outcome r = Ok sm
    /\ totalChunks sm = length (deliveredChunks r)
    /\ chunkMetrics sm = List.map metrics (deliveredChunks r)
    /\ totalAudioDuration sm
       = fold_left Qplus (List.map duration (deliveredChunks r)) 0
    /\ option_map sessionMetrics (currentSession (globals r)) = Some (Some sm).
Proof.
  destruct (predictStream (cancelInCallback 0) threeSentences freshGlobals)
    as [r|] eqn:Erun; [| vm_compute in Erun; discriminate Erun].
  destruct (outcome r) as [sm|e] eqn:Eout.
  - exists r, sm. split; [reflexivity|]. split; [exact Eout|].
    exact (predictStream_metrics_agree (cancelInCallback 0) threeSentences
             freshGlobals r sm Erun Eout).
  - exfalso. vm_compute in Erun. injection Erun as <-. discriminate Eout.
Defined.

(** *** Runs without interference *)

Lemma interfere_off env p s : cancelRequested env p = false -> interfere env p s = s.
Proof. unfold interfere. now intros ->. Qed.

(** A stretch of chunks during which nothing is cancelled and nothing
    throws is delivered whole, in order. *)
Lemma streamLoop_prefix env pre rest :
  forall i ls,
    state (session ls) = streaming ->
    (forall j, (i <= j < i + length pre)%nat ->
       cancelRequested env (DuringWork j) = false
       /\ cancelRequested env (InCallback j) = false
       /\ onChunkThrows env j = None) ->
    Forall (fun tc => exists pcm0, synthesize env (Chunking.text tc) = Ok pcm0) pre ->
    exists ls',
      streamLoop env (pre ++ rest) i ls
      = streamLoop env rest (i + length pre)%nat ls'
      /\ session ls' = session ls
      /\ length (chunks (bufferManager ls'))
         = (length (chunks (bufferManager ls)) + length pre)%nat
      /\ exists D,
           delivered ls' = delivered ls ++ D
           /\ List.map text D = List.map Chunking.text pre
           /\ List.map isLast D = List.map Chunking.isLast pre
           /\ List.map index D
              = seq (length (chunks (bufferManager ls))) (length pre).
Proof.
  induction pre as [|tc pre IH]; intros i ls Hst Hquiet Hsyn.
  - exists ls. cbn [app length]. rewrite !Nat.add_0_r.
    repeat split. exists []. now rewrite app_nil_r.
  - apply Forall_cons in Hsyn. destruct Hsyn as [[pcm0 Hpcm] Hsyn].
    destruct (Hquiet i) as (Hw & Hc & Ht); [cbn [length]; lia|].
    cbn [app]. rewrite (streamLoop_turn env tc _ i ls pcm0)
      by (try rewrite Hst; congruence || exact Hpcm).
    rewrite Ht.
    destruct (advance_store env tc i ls pcm0) as (Hlen & _ & _).
    destruct (deliveredBy_fields env tc i ls pcm0) as (Htext & Hlast & Hidx & _).
    destruct (IH (S i) (advance env tc i ls pcm0)) as (ls' & Hrun & Hs & Hl & D & HD & HDt & HDl & HDi).
    + unfold advance. cbn [session]. now rewrite !interfere_off.
    + intros j Hj. apply Hquiet. cbn [length]. lia.
    + exact Hsyn.
    + exists ls'. split; [rewrite Hrun; f_equal; cbn [length]; lia|].
      split; [rewrite Hs; unfold advance; cbn [session]; now rewrite !interfere_off|].
      split; [rewrite Hl, Hlen; cbn [length]; lia|].
      exists (deliveredBy env tc i ls pcm0 :: D).
      split; [rewrite HD, advance_delivered, <- app_assoc; reflexivity|].
      cbn [List.map length seq]. rewrite HDt, HDl, HDi, Htext, Hlast, Hidx, Hlen.
      repeat split.
Qed.

Lemma initial_streaming env counter :
  state (setState streaming
           (interfere env DuringInit (mkSession counter initializing None None)))
  = streaming.
Proof. reflexivity. Qed.



(** *** Failure and cancellation in the middle *)

(** When the engine throws on a chunk, and nothing was cancelled or thrown
    before, the chunks before it have been delivered and stay delivered,
    no later chunk is, the run throws the same exception, and the session
    is left in error with the message of the exception. *)
Theorem predictStream_fails_midway (env : Env) (config : StreamingConfig)
    (g : Globals) (rate : Q)
    (pre : list Chunking.TextChunk) (tc : Chunking.TextChunk)
    (post : list Chunking.TextChunk) (e : JsError) :
  loadModel env = Ok rate ->
  Chunking.createTextChunks (configText config)
    (default 1%nat (chunkSize config)) (default 1%nat (lookahead config))
  = Some (pre ++ tc :: post) ->
  (forall p, cancelRequested env p = false) ->
  (forall i, onChunkThrows env i = None) ->
  Forall (fun c => exists pcm0, synthesize env (Chunking.text c) = Ok pcm0) pre ->
  synthesize env (Chunking.text tc) = Throw e ->
  exists r,
    predictStream env config g = Some r
    /\ outcome r = Throw e
    /\ finalState r = Some error
    /\ option_map errorMessage (currentSession (globals r))
       = Some (Some (StreamingEvents.errorText e))
    /\ List.map text (deliveredChunks r) = List.map Chunking.text pre.
Proof.
  intros Hload Hchunks Hcancel Hthrow Hpre Htc.
  unfold predictStream. rewrite Hload, Hchunks.
  match goal with
  | |- context [streamLoop env (pre ++ tc :: post) 0 ?l] =>
      destruct (streamLoop_prefix env pre (tc :: post) 0 l)
        as (ls' & Hrun & Hs & _ & D & HD & HDt & _);
      [ apply initial_streaming | intros j _; auto | exact Hpre | ]
  end.
  rewrite Hrun. cbn [streamLoop].
  replace (isState cancelled (session ls')) with false
    by (rewrite Hs; reflexivity).
  rewrite Htc. cbn [delivered app] in HD. subst D.
  eexists. split; [reflexivity|]. repeat split. exact HDt.
Qed.

Lemma predictStream_fails_midway_witness :
  exists r,
    predictStream
      (failingOn (JsString.lit "Two.") (RangeError offsetOutOfBounds))
      threeSentences freshGlobals = Some r
    /\ outcome r = Throw (RangeError offsetOutOfBounds)
    /\ finalState r = Some error
    /\ option_map errorMessage (currentSession (globals r))
       = Some (Some (JsString.lit "offset is out of bounds"))
    /\ List.map text (deliveredChunks r) = [JsString.lit "One."].
Proof.
  apply (predictStream_fails_midway
           (failingOn (JsString.lit "Two.") (RangeError offsetOutOfBounds))
           threeSentences freshGlobals 100
           [Chunking.mkTextChunk (JsString.lit "One.") 0 true false None
              (Some (JsString.lit "Two."))]
           (Chunking.mkTextChunk (JsString.lit "Two.") 1 false false
              (Some (JsString.lit "One.")) (Some (JsString.lit "Three.")))
           [Chunking.mkTextChunk (JsString.lit "Three.") 2 false true
              (Some (JsString.lit "Two.")) None]
           (RangeError offsetOutOfBounds)).
  - reflexivity.
  - vm_compute. reflexivity.
  - intros p. reflexivity.
  - intros i. reflexivity.
  - repeat constructor. eexists. vm_compute. reflexivity.
  - vm_compute. reflexivity.
Defined.

(** A cancellation that comes while a chunk is being synthesized does not
    stop that chunk: it is delivered, and the loop ends before the next
    one. With the cancellation during chunk [k], the chunks 0 to [k] are
    delivered. *)
Theorem predictStream_cancel_is_not_preemptive (env : Env)
    (config : StreamingConfig) (g : Globals) (rate : Q) (k : nat)
    (textChunks : list Chunking.TextChunk) :
  loadModel env = Ok rate ->
  Chunking.createTextChunks (configText config)
    (default 1%nat (chunkSize config)) (default 1%nat (lookahead config))
  = Some textChunks ->
  (forall p, cancelRequested env p = phase_eqb p (DuringWork k)) ->
  (forall i, onChunkThrows env i = None) ->
  (forall t, exists pcm0, synthesize env t = Ok pcm0) ->
  (k < length textChunks)%nat ->
  exists r,
    predictStream env config g = Some r
    /\ List.map text (deliveredChunks r)
       = List.map Chunking.text (take (S k) textChunks).
Proof.
  intros Hload Hchunks Hcancel Hthrow Hsyn Hk.
  destruct (lookup_lt_is_Some_2 textChunks k Hk) as [tc Htc].
  assert (Hsplit : textChunks = take k textChunks ++ tc :: drop (S k) textChunks)
    by (symmetry; now apply take_drop_middle).
  assert (Hlen : length (take k textChunks) = k) by (rewrite length_take; lia).
  unfold predictStream. rewrite Hload, Hchunks.
  match goal with
  | |- context [streamLoop env textChunks 0 ?l] =>
      replace (streamLoop env textChunks 0 l)
        with (streamLoop env (take k textChunks ++ tc :: drop (S k) textChunks) 0 l)
        by (now rewrite <- Hsplit);
      destruct (streamLoop_prefix env (take k textChunks)
                  (tc :: drop (S k) textChunks) 0 l)
        as (ls' & Hrun & Hs & _ & D & HD & HDt & _);
      [ apply initial_streaming
      | intros j Hj; rewrite !Hcancel, Hthrow; cbn [phase_eqb];
        repeat split; apply Nat.eqb_neq; lia
      | apply List.Forall_forall; intros c _; apply Hsyn
      | ]
  end.
  rewrite Hrun, Hlen. cbn [Nat.add].
  destruct (Hsyn (Chunking.text tc)) as [pcm0 Hpcm].
  rewrite (streamLoop_turn env tc _ k ls' pcm0)
    by (try rewrite Hs; (discriminate || exact Hpcm)).
  rewrite Hthrow.
  rewrite StreamingSpec.streamLoop_cancelled.
  2:{ unfold advance. cbn [session]. unfold interfere.
      rewrite !Hcancel. cbn [phase_eqb]. rewrite Nat.eqb_refl.
      rewrite StreamingSpec.cancelSession_state, Hs. reflexivity. }
  eexists. split; [reflexivity|]. cbn [deliveredChunks].
  rewrite advance_delivered, HD. cbn [delivered app]. rewrite map_app, HDt.
  cbn [List.map].
  destruct (deliveredBy_fields env tc k ls' pcm0) as (-> & _).
  rewrite (take_S_r textChunks k tc Htc), map_app. reflexivity.
Qed.

Lemma predictStream_cancel_is_not_preemptive_witness :
  exists r,
    predictStream (cancelDuringWork 1) threeSentences freshGlobals = Some r
    /\ List.map text (deliveredChunks r)
       = [JsString.lit "One."; JsString.lit "Two."].
Proof.
  apply (predictStream_cancel_is_not_preemptive (cancelDuringWork 1)
           threeSentences freshGlobals 100 1
           [Chunking.mkTextChunk (JsString.lit "One.") 0 true false None
              (Some (JsString.lit "Two."));
            Chunking.mkTextChunk (JsString.lit "Two.") 1 false false
              (Some (JsString.lit "One.")) (Some (JsString.lit "Three."));
            Chunking.mkTextChunk (JsString.lit "Three.") 2 false true
              (Some (JsString.lit "Two.")) None]).
  - reflexivity.
  - vm_compute. reflexivity.
  - intros p. reflexivity.
  - intros i. reflexivity.
  - intros t. eexists. reflexivity.
  - cbn. lia.
Defined.

(** *** Cancellation before the loop *)

Lemma streamLoop_withInitCancel env textChunks :
  forall i ls,
    streamLoop (withInitCancel env) textChunks i ls = streamLoop env textChunks i ls.
Proof.
  induction textChunks as [|tc rest IH]; intros i ls; [reflexivity|].
  cbn [streamLoop]. unfold interfere.
  cbn [withInitCancel cancelRequested synthesize measured onChunkThrows
       phase_eqb orb].
  destruct (isState cancelled (session ls)); [reflexivity|].
  destruct (synthesize env (Chunking.text tc)); [| reflexivity].
  destruct (addChunk _ _ _ _). destruct (onChunkThrows env i); [reflexivity|].
  apply IH.
Qed.

(** A call of [cancelStream] while the model is still loading is lost: the
    session is not streaming yet, so the call changes nothing, and the run
    goes on as if it had not been made. *)
Theorem cancel_while_loading_is_lost (env : Env) (config : StreamingConfig)
    (g : Globals) :
  predictStream (withInitCancel env) config g = predictStream env config g.
Proof.
  unfold predictStream, interfere.
  cbn [withInitCancel cancelRequested loadModel wallTime phase_eqb orb].
  destruct (cancelRequested env DuringInit);
    change (cancelSession (mkSession (S (sessionCounter g)) initializing None None))
      with (mkSession (S (sessionCounter g)) initializing None None);
    destruct (loadModel env); try reflexivity;
    destruct (Chunking.createTextChunks _ _ _); try reflexivity;
    now rewrite streamLoop_withInitCancel.
Qed.

(** *** The event variant *)

Lemma streamLoop_id env textChunks :
  forall i ls, id (session (fst (streamLoop env textChunks i ls))) = id (session ls).
Proof.
  assert (Hc : forall s, id (cancelSession s) = id s).
  { intros s. unfold cancelSession. now destruct (isState streaming s). }
  assert (Hi : forall p s, id (interfere env p s) = id s).
  { intros p s. unfold interfere. destruct (cancelRequested env p); [apply Hc | reflexivity]. }
  induction textChunks as [|tc rest IH]; intros i ls; [reflexivity|].
  cbn [streamLoop].
  destruct (isState cancelled (session ls)); [reflexivity|].
  destruct (synthesize env (Chunking.text tc)); [| cbn; apply Hi].
  destruct (addChunk _ _ _ _). destruct (onChunkThrows env i); [cbn; apply Hi|].
  rewrite IH. cbn [session]. now rewrite !Hi.
Qed.

Lemma predictStream_session_id env config g r :
  predictStream env config g = Some r ->
  option_map id (currentSession (globals r)) = Some (S (sessionCounter g))
  /\ sessionCounter (globals r) = S (sessionCounter g).
Proof.
  unfold predictStream. intros H.
  assert (Hi : id (interfere env DuringInit
                     (mkSession (S (sessionCounter g)) initializing None None))
               = S (sessionCounter g)).
  { unfold interfere. now destruct (cancelRequested env DuringInit). }
  destruct (loadModel env); [| injection H as <-; cbn; now rewrite Hi].
  destruct (Chunking.createTextChunks _ _ _) as [tcs|]; [| discriminate H].
  match type of H with
  | context [streamLoop env tcs 0 ?l] =>
      pose proof (streamLoop_id env tcs 0 l) as Hid;
      destruct (streamLoop env tcs 0 l) as [ls [e|]]
  end; injection H as <-; cbn in *; now rewrite Hid, Hi.
Qed.



(** The identifier announced in the start event is not the identifier of
    the session that runs: the event variant takes a number from the
    session counter, and the stream it starts takes the next one. After the
    call the current session carries the announced number plus one. *)
Theorem predictStreamEvents_announces_other_id (env : Env)
    (h : StreamingEvents.Handler) (config : StreamingConfig) (g : Globals)
    (er : StreamingEvents.EventRun) :
  StreamingEvents.predictStreamEvents env h config g = Some er ->
  StreamingEvents.onStartThrows h = None ->
  hd_error (StreamingEvents.events er)
  = Some (StreamingEvents.EvStart (S (sessionCounter g)))
  /\ option_map id (currentSession (StreamingEvents.eventGlobals er))
     = Some (S (S (sessionCounter g)))
  /\ sessionCounter (StreamingEvents.eventGlobals er) = S (S (sessionCounter g)).
Proof.
  unfold StreamingEvents.predictStreamEvents. intros Hrun Hstart.
  rewrite Hstart in Hrun.
  destruct (predictStream env config _) as [r|] eqn:Er; [| discriminate Hrun].
  apply predictStream_session_id in Er. cbn [sessionCounter] in Er.
  destruct (outcome r) as [sm|e];
    [destruct (StreamingEvents.onCompleteThrows h)|];
    injection Hrun as <-; cbn; split; try reflexivity; exact Er.
Qed.

Lemma predictStreamEvents_announces_other_id_witness :
  exists er,
    StreamingEvents.predictStreamEvents quiet
      (StreamingEvents.mkHandler None None None) threeSentences freshGlobals
    = Some er
    /\ hd_error (StreamingEvents.events er) = Some (StreamingEvents.EvStart 1)
    /\ option_map id (currentSession (StreamingEvents.eventGlobals er)) = Some 2%nat.
Proof.
  destruct (StreamingEvents.predictStreamEvents quiet
              (StreamingEvents.mkHandler None None None)
              threeSentences freshGlobals) as [er|] eqn:E;
    [| vm_compute in E; discriminate E].
  exists er. split; [reflexivity|].
  destruct (predictStreamEvents_announces_other_id quiet
              (StreamingEvents.mkHandler None None None)
              threeSentences freshGlobals er E eq_refl) as (H1 & H2 & _).
  split; [exact H1 | exact H2].
Defined.

End StreamingProps.
